(** * Random variates from scratch: the linear congruential engine and the
      samplers layered on it

    A shallow embedding of the notebook "Generating random variables from
    scratch" ([pseudo_uniform_bad], [pseudo_uniform_good], [pseudo_uniform],
    [sample_pick], [pseudo_bernoulli], [pseudo_binomial], [pseudo_normal],
    [pseudo_exp], [pseudo_poisson]) and of [abs_array] of the Bayes' rule
    notebook.

    The code is embedded twice.
    - In the first embedding a float is an exact rational [Q]: the quotient
      [x/mod] is the exact fraction, products and sums are exact.  It
      carries the statements that rounding does not touch: which exception
      is raised and after how many clock readings, the integer states of
      the recurrence, the lengths of the buffers, integer counts, and
      comparisons between values that are computed the same way on both
      sides.
    - In the module [B64] a float is a binary64 number and the arithmetic is
      the correctly rounded arithmetic of IEEE 754.  Every statement about
      the value of a float, or about the interval it lies in, is made
      there.

    Conventions common to both.
    - Python integers are [Z]; [%] is [Z.modulo] (both take the sign of the
      divisor) and raises [ZeroDivisionError] on a zero divisor.
    - numpy's transcendental functions on their finite domain are fields of
      a [Libm] record.
    - An exception is the [Raise] branch of [result].
    - [time.perf_counter()] reads the next entry of a clock trace; the
      number of readings made so far is threaded as state. *)

From Stdlib Require Import ZArith QArith Qround Lia Lqa SpecFloat.
From stdpp Require Import base list.
From Equations Require Import Equations.

Local Open Scope Z_scope.

(** ** Exceptions and results *)

Inductive exn : Type :=
| IndexError
| ValueError
| ZeroDivisionError.

Inductive result (A : Type) : Type :=
| Ok (a : A)
| Raise (e : exn).

Arguments Ok {A} a.
Arguments Raise {A} e.

Definition rbind {A B : Type} (r : result A) (k : A -> result B) : result B :=
  match r with
  | Ok a => k a
  | Raise e => Raise e
  end.

Notation "'let!' x ':=' r 'in' k" := (rbind r (fun x => k))
  (at level 10, x name, r at level 100, k at level 200).

(** ** The Python and numpy primitives the engine uses *)

Module Py.

(** [a % b] on integers. *)
Definition mod_ (a b : Z) : result Z :=
  if b =? 0 then Raise ZeroDivisionError else Ok (a mod b).

(** [a / b] on integers: true division. *)
Definition truediv (a b : Z) : result Q :=
  if b =? 0 then Raise ZeroDivisionError
  else Ok (inject_Z a / inject_Z b)%Q.

(** [range(a, b)] for [0 <= a], as the list of indices it yields. *)
Definition range (a b : Z) : list nat :=
  seq (Z.to_nat a) (Z.to_nat (b - a)).

End Py.

Module Np.

(** [np.zeros(size)]: a negative dimension is a [ValueError]. *)
Definition zeros (size : Z) : result (list Q) :=
  if size <? 0 then Raise ValueError
  else Ok (replicate (Z.to_nat size) 0%Q).

(** [U[i] = v] for [i >= 0]: out of range is an [IndexError]. *)
Definition setitem (U : list Q) (i : nat) (v : Q) : result (list Q) :=
  if decide (i < length U)%nat then Ok (<[i := v]> U) else Raise IndexError.

End Np.

(** ** The engine *)

(** The body of [for i in range(1,size)]: the state [x] and the buffer [U]
    are threaded through the iterations. *)
Fixpoint lcg_for (mult m : Z) (idx : list nat) (x : Z) (U : list Q)
  : result (list Q) :=
  match idx with
  | [] => Ok U
  | i :: idx' =>
      let! x' := Py.mod_ (x * mult + 1) m in
      let! v := Py.truediv x' m in
      let! U' := Np.setitem U i v in
      lcg_for mult m idx' x' U'
  end.

Definition pseudo_uniform_bad (mult m seed size : Z) : result (list Q) :=
  let! U := Np.zeros size in
  let! x := Py.mod_ (seed * mult + 1) m in
  let! v := Py.truediv x m in
  let! U := Np.setitem U 0 v in
  lcg_for mult m (Py.range 1 size) x U.

Definition pseudo_uniform_good (mult m seed size : Z) : result (list Q) :=
  let! U := Np.zeros size in
  let! x := Py.mod_ (seed * mult + 1) m in
  let! v := Py.truediv x m in
  let! U := Np.setitem U 0 v in
  lcg_for mult m (Py.range 1 size) x U.

(** Default arguments of the two generators. *)
Definition bad_mult : Z := 5.
Definition bad_mod : Z := 11.
Definition good_mult : Z := 16807.
Definition good_mod : Z := 2 ^ 31 - 1.

(** The recurrence the engine is meant to compute, index by index:
    [x_0 = (seed*mult + 1) mod m] and [x_(i+1) = (x_i*mult + 1) mod m]. *)
Fixpoint lcg_state (mult m seed : Z) (i : nat) : Z :=
  match i with
  | O => (seed * mult + 1) mod m
  | S j => (lcg_state mult m seed j * mult + 1) mod m
  end.

Definition frac (x m : Z) : Q := (inject_Z x / inject_Z m)%Q.

Definition lcg_values (mult m seed : Z) (n : nat) : list Q :=
  map (fun i => frac (lcg_state mult m seed i) m) (seq 0 n).

(** ** The uniform sampler *)

Definition pseudo_uniform (low high : Q) (seed size : Z) : result (list Q) :=
  let! G := pseudo_uniform_good good_mult good_mod seed size in
  Ok (map (fun u => low + (high - low) * u)%Q G).

(** ** The clock and the seed drawn from it *)

(** The state of the outside world the samplers read: the trace of values
    [time.perf_counter()] returns, and how many of them were read. *)
Record world : Type := World { trace : nat -> Q; ticks : nat }.

Definition sampler (A : Type) : Type := world -> result A * world.

Definition sret {A : Type} (a : A) : sampler A := fun w => (Ok a, w).

Definition sbind {A B : Type} (c : sampler A) (k : A -> sampler B)
  : sampler B :=
  fun w => match c w with
           | (Ok a, w') => k a w'
           | (Raise e, w') => (Raise e, w')
           end.

Definition lift {A : Type} (r : result A) : sampler A := fun w => (r, w).

Notation "'let*' x ':=' c 'in' k" := (sbind c (fun x => k))
  (at level 10, x name, c at level 100, k at level 200).

Definition perf_counter : sampler Q :=
  fun w => (Ok (trace w (ticks w)), World (trace w) (S (ticks w))).

(** [int(q)] on a float: truncation towards zero. *)
Definition py_int (q : Q) : Z := Z.quot (Qnum q) (Zpos (Qden q)).

(** [int(10**9*float(str(t-int(t))[0:]))]: the decimal part of the clock
    reading, scaled to an integer. *)
Definition clock_seed (t : Q) : Z :=
  py_int (inject_Z (10 ^ 9) * (t - inject_Z (py_int t)))%Q.

(** ** Bernoulli and Binomial *)

(** [(U <= p).astype(int)] *)
Definition le_astype_int (U : list Q) (p : Q) : list Z :=
  map (fun u => if Qle_bool u p then 1 else 0) U.

(** [np.sum(Y)] *)
Definition np_sum (Y : list Z) : Z := foldr Z.add 0 Y.

Definition pseudo_bernoulli (p : Q) (size : Z) : sampler (list Z) :=
  let* t := perf_counter in
  let seed := clock_seed t in
  let* B := lift (pseudo_uniform 0 1 seed size) in
  sret (le_astype_int B p).

(** [for _ in range(size)] of [pseudo_binomial], [k] iterations left. *)
Fixpoint binomial_for (k : nat) (n : Z) (p : Q) (binom : list Z)
  : sampler (list Z) :=
  match k with
  | O => sret binom
  | S k' =>
      let* t := perf_counter in
      let seed := clock_seed t in
      let* U := lift (pseudo_uniform 0 1 seed n) in
      let Y := le_astype_int U p in
      binomial_for k' n p (binom ++ [np_sum Y])
  end.

Definition pseudo_binomial (n : Z) (p : Q) (size : Z) : sampler (list Z) :=
  binomial_for (Z.to_nat size) n p [].

(** ** numpy floats with their non-finite values *)

Inductive npfloat : Type :=
| Fin (q : Q)
| PInf
| NInf
| NaN.

(** The elementary functions on the finite part of their domain. *)
Record Libm : Type := MkLibm {
  ln : Q -> Q;
  sqrt : Q -> Q;
  cos : Q -> Q;
  sin : Q -> Q;
  exp : Q -> Q;
  pi : Q
}.

Definition Qsign (q : Q) : Z := Z.sgn (Qnum q).

Definition inf_of_sign (s : Z) : npfloat :=
  match s with
  | Z0 => NaN
  | Zpos _ => PInf
  | Zneg _ => NInf
  end.

Definition fsign (x : npfloat) : Z :=
  match x with
  | Fin q => Qsign q
  | PInf => 1
  | NInf => -1
  | NaN => 0
  end.

Definition fmul (x y : npfloat) : npfloat :=
  match x, y with
  | Fin a, Fin b => Fin (a * b)
  | NaN, _ | _, NaN => NaN
  | _, _ => inf_of_sign (fsign x * fsign y)
  end.

Definition fadd (x y : npfloat) : npfloat :=
  match x, y with
  | Fin a, Fin b => Fin (a + b)
  | NaN, _ | _, NaN => NaN
  | PInf, NInf | NInf, PInf => NaN
  | PInf, _ | _, PInf => PInf
  | NInf, _ | _, NInf => NInf
  end.

(** [np.log]: [-inf] at 0 and [nan] below, with a warning but no error. *)
Definition np_log (L : Libm) (x : npfloat) : npfloat :=
  match x with
  | Fin q => match Qsign q with
             | Z0 => NInf
             | Zpos _ => Fin (ln L q)
             | Zneg _ => NaN
             end
  | PInf => PInf
  | _ => NaN
  end.

Definition np_sqrt (L : Libm) (x : npfloat) : npfloat :=
  match x with
  | Fin q => match Qsign q with
             | Zneg _ => NaN
             | _ => Fin (sqrt L q)
             end
  | PInf => PInf
  | _ => NaN
  end.

Definition np_cos (L : Libm) (x : npfloat) : npfloat :=
  match x with Fin q => Fin (cos L q) | _ => NaN end.

Definition np_sin (L : Libm) (x : npfloat) : npfloat :=
  match x with Fin q => Fin (sin L q) | _ => NaN end.

(** ** Normal (Box-Muller) and Exponential *)

Definition pseudo_normal (L : Libm) (mu sigma : Q) (size : Z)
  : sampler (list npfloat) :=
  let* t := perf_counter in
  let seed1 := clock_seed t in
  let* U1 := lift (pseudo_uniform 0 1 seed1 size) in
  let* t := perf_counter in
  let seed2 := clock_seed t in
  let* U2 := lift (pseudo_uniform 0 1 seed2 size) in
  let R := map (fun u1 => np_sqrt L (fmul (Fin (-2)) (np_log L (Fin u1)))) U1 in
  let Z0 := zip_with fmul R
              (map (fun u2 => np_cos L (Fin (2 * pi L * u2))) U2) in
  let Z1 := zip_with fmul R
              (map (fun u2 => np_sin L (Fin (2 * pi L * u2))) U2) in
  let Z0 := map (fun z => fadd (fmul z (Fin sigma)) (Fin mu)) Z0 in
  sret Z0.

(** [1/lamb] on Python numbers. *)
Definition py_inv (lamb : Q) : result Q :=
  if Qeq_bool lamb 0 then Raise ZeroDivisionError else Ok (1 / lamb)%Q.

Definition pseudo_exp (L : Libm) (lamb : Q) (size : Z)
  : sampler (list npfloat) :=
  let* t := perf_counter in
  let seed := clock_seed t in
  let* U := lift (pseudo_uniform 0 1 seed size) in
  let* r := lift (py_inv lamb) in
  let X := map (fun u => fmul (Fin (- r)) (np_log L (Fin (1 - u)))) U in
  sret X.

(** ** Poisson (product of uniforms) *)

Definition inspect {A : Type} (a : A) : {b : A | a = b} := exist _ a eq_refl.

(** [while P >= np.exp(-alpha): P = U[i]*P; X += 1; i += 1], with [th] the
    value of [np.exp(-alpha)].  Every iteration advances [i], and [U[i]]
    raises once [i] leaves the buffer, so the loop ends. *)
Equations poisson_while (th : Q) (U : list Q) (X : Z) (P : Q) (i : nat)
  : result Z by wf (length U - i)%nat lt :=
  poisson_while th U X P i with Qle_bool th P := {
    | false => Ok X
    | true with inspect (U !! i) := {
        | @exist None _ => Raise IndexError
        | @exist (Some u) Hu =>
            poisson_while th U (X + 1) (u * P)%Q (i + 1)%nat } }.
Next Obligation.
  apply lookup_lt_Some in Hu. lia.
Qed.

(** [for _ in range(size)] of [pseudo_poisson], [k] iterations left. *)
Fixpoint poisson_for (k : nat) (L : Libm) (alpha : Z) (poisson : list Z)
  : sampler (list Z) :=
  match k with
  | O => sret poisson
  | S k' =>
      let* t := perf_counter in
      let seed := clock_seed t in
      let* U := lift (pseudo_uniform 0 1 seed (5 * alpha)) in
      let* X := lift (poisson_while (exp L (inject_Z (- alpha))) U 0 1 0) in
      poisson_for k' L alpha (poisson ++ [X])
  end.

Definition pseudo_poisson (L : Libm) (alpha size : Z) : sampler (list Z) :=
  poisson_for (Z.to_nat size) L alpha [].

(** ** Reference definitions the samplers are compared with *)

(** The draws [pseudo_uniform(seed=seed, size=n)] hands to a sampler. *)
Definition uniform_draws (low high : Q) (seed : Z) (n : nat) : list Q :=
  map (fun u => low + (high - low) * u)%Q
      (lcg_values good_mult good_mod seed n).

(** The world after [n] more clock readings. *)
Definition advance (w : world) (n : nat) : world :=
  World (trace w) (ticks w + n).

(** The seed taken from the [j]-th clock reading after [w]. *)
Definition seed_at (w : world) (j : nat) : Z :=
  clock_seed (trace w (ticks w + j)%nat).

(** The product of the first [k] draws. *)
Definition prod_first (U : list Q) (k : nat) : Q :=
  foldr Qmult 1%Q (take k U).

(** Knuth's counter as the specification words it: start from [P = 1] and
    [X = 0]; while [P >= th], multiply [P] by the next draw and increment
    [X]; [None] when the draws run out first. *)
Fixpoint knuth_count (th : Q) (draws : list Q) (P : Q) (X : Z) : option Z :=
  if Qle_bool th P then
    match draws with
    | [] => None
    | u :: rest => knuth_count th rest (u * P)%Q (X + 1)
    end
  else Some X.


(** [k] draws are the first to bring the running product, started at [P],
    below [th]. *)
Definition first_below (th P : Q) (draws : list Q) (k : nat) : Prop :=
  (k <= length draws)%nat /\ (P * prod_first draws k < th)%Q /\
  forall j : nat, (j < k)%nat -> (th <= P * prod_first draws j)%Q.

(** The [j]-th outcome of the Poisson sampler as the specification words
    it: Knuth's counter over the [5*alpha] draws of an engine seeded from the
    [j]-th clock reading. *)
Definition poisson_outcome (L : Libm) (alpha : Z) (w : world) (j : nat)
  : option Z :=
  knuth_count (exp L (inject_Z (- alpha)))
              (uniform_draws 0 1 (seed_at w j) (Z.to_nat (5 * alpha))) 1 0.

(** ** A rational instance of the elementary functions

    Truncated series, good enough to run the samplers on concrete inputs. *)

Definition approx_exp (q : Q) : Q :=
  let n := Qfloor q in
  let r := (q - inject_Z n)%Q in
  (Qpower (193 # 71) n * (1 + r + r * r / 2 + r * r * r / 6))%Q.

Definition approx_ln (q : Q) : Q :=
  let y := ((q - 1) / (q + 1))%Q in
  (2 * (y + y * y * y / 3 + y * y * y * y * y / 5))%Q.

Definition approx_sqrt (q : Q) : Q :=
  let s0 := ((q + 1) / 2)%Q in
  let s1 := ((s0 + q / s0) / 2)%Q in
  Qred ((s1 + q / s1) / 2)%Q.

Definition approx_cos (x : Q) : Q :=
  (1 - x * x / 2 + x * x * x * x / 24)%Q.

Definition approx_sin (x : Q) : Q :=
  (x - x * x * x / 6 + x * x * x * x * x / 120)%Q.

Definition approx_libm : Libm :=
  MkLibm approx_ln approx_sqrt approx_cos approx_sin approx_exp (355 # 113).

(** A clock that always reads [t]. *)
Definition frozen (t : Q) : world := World (fun _ => t) 0.

(** A clock that reads the entries of [ts] in turn, then stays at 0. *)
Definition clock_of (ts : list Q) : world :=
  World (fun i => default 0%Q (ts !! i)) 0.

(** ** The sample picker *)

(** What [sample_pick] can raise: an exception of the engine or of list
    indexing, or the [TypeError] of [int] on an array. *)
Inductive pick_exn : Type :=
| Engine (e : exn)
| TypeError.

(** [int(s)] on a numpy array: only an array of one entry converts. *)
Definition array_int (s : list Q) : Z + pick_exn :=
  match s with
  | [v] => inl (py_int v)
  | _ => inr TypeError
  end.

(** [lst[idx]] on a Python list: a negative index counts from the end. *)
Definition list_getitem {A : Type} (lst : list A) (idx : Z) : A + pick_exn :=
  let l := Z.of_nat (length lst) in
  let i := if idx <? 0 then idx + l else idx in
  if (0 <=? i) && (i <? l) then
    match lst !! Z.to_nat i with
    | Some a => inl a
    | None => inr (Engine IndexError)
    end
  else inr (Engine IndexError).

Definition sample_pick {A : Type} (lst : list A) (w : world)
  : (A + pick_exn) * world :=
  match perf_counter w with
  | (Raise e, w1) => (inr (Engine e), w1)
  | (Ok t, w1) =>
      let seed := clock_seed t in
      let l := Z.of_nat (length lst) in
      match pseudo_uniform 0 (inject_Z l) seed 1 with
      | Raise e => (inr (Engine e), w1)
      | Ok s =>
          match array_int s with
          | inr e => (inr e, w1)
          | inl idx => (list_getitem lst idx, w1)
          end
      end
  end.

(** * The same code in binary64

    The definitions above read every float as an exact rational.  The
    module below repeats the engine and the samplers with numpy's float64
    arithmetic: a float is a [spec_float], and [+], [-], [*], [/] and
    [np.sqrt] are the correctly rounded operations of the standard library's
    specification of IEEE 754 at precision 53.  [np.log], [np.cos],
    [np.sin] and [np.exp] on finite arguments stay parameters. *)

Module B64.

Definition prec : Z := 53.
Definition emax : Z := 1024.

Definition fadd : spec_float -> spec_float -> spec_float := SFadd prec emax.
Definition fsub : spec_float -> spec_float -> spec_float := SFsub prec emax.
Definition fmul : spec_float -> spec_float -> spec_float := SFmul prec emax.
Definition fdiv : spec_float -> spec_float -> spec_float := SFdiv prec emax.
Definition fsqrt : spec_float -> spec_float := SFsqrt prec emax.

(** An integer as an unrounded significand with exponent 0. *)
Definition raw (z : Z) : spec_float :=
  match z with
  | Z0 => S754_zero false
  | Zpos p => S754_finite false p 0
  | Zneg p => S754_finite true p 0
  end.

(** The float nearest to [a/b], for [b <> 0]: what Python's [a/b] on
    integers and a decimal literal both denote. *)
Definition ratio (a b : Z) : spec_float := SFdiv prec emax (raw a) (raw b).

(** [float(z)] *)
Definition of_int (z : Z) : spec_float := ratio z 1.

Definition zero : spec_float := S754_zero false.
Definition one : spec_float := of_int 1.

Definition is_finite (x : spec_float) : bool :=
  match x with
  | S754_zero _ | S754_finite _ _ _ => true
  | _ => false
  end.

(** [0 <= u < 1] *)
Definition in_unit_interval (u : spec_float) : Prop :=
  SFleb zero u = true /\ SFltb u one = true.

Inductive exn : Type :=
| IndexError
| ValueError
| ZeroDivisionError
| OverflowError.

Inductive result (A : Type) : Type :=
| Ok (a : A)
| Raise (e : exn).

Arguments Ok {A} a.
Arguments Raise {A} e.

Definition rbind {A B : Type} (r : result A) (k : A -> result B) : result B :=
  match r with
  | Ok a => k a
  | Raise e => Raise e
  end.

Notation "'do!' x ':=' r 'in' k" := (rbind r (fun x => k))
  (at level 10, x name, r at level 100, k at level 200).

(** [a % b] on integers. *)
Definition int_mod (a b : Z) : result Z :=
  if b =? 0 then Raise ZeroDivisionError else Ok (a mod b).

(** [a / b] on integers: the correctly rounded quotient.  The engine
    divides a residue by its modulus, so the quotient is at most 1 in
    magnitude; Python's [OverflowError] for a quotient beyond the float
    range is out of its reach and is not represented. *)
Definition int_truediv (a b : Z) : result spec_float :=
  if b =? 0 then Raise ZeroDivisionError else Ok (ratio a b).

(** [int(x)] on a float: truncation towards zero. *)
Definition to_int (x : spec_float) : result Z :=
  match x with
  | S754_zero _ => Ok 0
  | S754_nan => Raise ValueError
  | S754_infinity _ => Raise OverflowError
  | S754_finite s m e =>
      let a := match e with
               | Zneg k => Z.shiftr (Zpos m) (Zpos k)
               | _ => Z.shiftl (Zpos m) e
               end in
      Ok (if s then - a else a)
  end.

(** [np.zeros(size)] *)
Definition zeros (size : Z) : result (list spec_float) :=
  if size <? 0 then Raise ValueError
  else Ok (replicate (Z.to_nat size) zero).

(** [U[i] = v] for [i >= 0]. *)
Definition setitem (U : list spec_float) (i : nat) (v : spec_float)
  : result (list spec_float) :=
  if decide (i < length U)%nat then Ok (<[i := v]> U) else Raise IndexError.

(** ** The engine *)

Fixpoint lcg_for (mult m : Z) (idx : list nat) (x : Z) (U : list spec_float)
  : result (list spec_float) :=
  match idx with
  | [] => Ok U
  | i :: idx' =>
      do! x' := int_mod (x * mult + 1) m in
      do! v := int_truediv x' m in
      do! U' := setitem U i v in
      lcg_for mult m idx' x' U'
  end.

Definition pseudo_uniform_bad (mult m seed size : Z)
  : result (list spec_float) :=
  do! U := zeros size in
  do! x := int_mod (seed * mult + 1) m in
  do! v := int_truediv x m in
  do! U := setitem U 0 v in
  lcg_for mult m (Py.range 1 size) x U.

Definition pseudo_uniform_good (mult m seed size : Z)
  : result (list spec_float) :=
  do! U := zeros size in
  do! x := int_mod (seed * mult + 1) m in
  do! v := int_truediv x m in
  do! U := setitem U 0 v in
  lcg_for mult m (Py.range 1 size) x U.

(** The buffer the recurrence of [lcg_state] gives in binary64. *)
Definition lcg_values (mult m seed : Z) (n : nat) : list spec_float :=
  map (fun i => ratio (lcg_state mult m seed i) m) (seq 0 n).

(** ** The uniform sampler *)

Definition pseudo_uniform (low high : spec_float) (seed size : Z)
  : result (list spec_float) :=
  do! G := pseudo_uniform_good good_mult good_mod seed size in
  Ok (map (fun u => fadd low (fmul (fsub high low) u)) G).

(** ** The clock *)

Record world : Type := World { trace : nat -> spec_float; ticks : nat }.

Definition sampler (A : Type) : Type := world -> result A * world.

Definition sret {A : Type} (a : A) : sampler A := fun w => (Ok a, w).

Definition sbind {A B : Type} (c : sampler A) (k : A -> sampler B)
  : sampler B :=
  fun w => match c w with
           | (Ok a, w') => k a w'
           | (Raise e, w') => (Raise e, w')
           end.

Definition lift {A : Type} (r : result A) : sampler A := fun w => (r, w).

Notation "'do*' x ':=' c 'in' k" := (sbind c (fun x => k))
  (at level 10, x name, c at level 100, k at level 200).

Definition perf_counter : sampler spec_float :=
  fun w => (Ok (trace w (ticks w)), World (trace w) (S (ticks w))).

(** [int(10**9*float(str(t-int(t))[0:]))]; [float(str(x))] is [x]. *)
Definition clock_seed (t : spec_float) : result Z :=
  do! i := to_int t in
  to_int (fmul (of_int (10 ^ 9)) (fsub t (of_int i))).

Definition advance (w : world) (n : nat) : world :=
  World (trace w) (ticks w + n).

(** ** Bernoulli *)

(** [(U <= p).astype(int)] *)
Definition le_astype_int (U : list spec_float) (p : spec_float) : list Z :=
  map (fun u => if SFleb u p then 1 else 0) U.

Definition pseudo_bernoulli (p : spec_float) (size : Z) : sampler (list Z) :=
  do* t := perf_counter in
  do* seed := lift (clock_seed t) in
  do* B := lift (pseudo_uniform (of_int 0) (of_int 1) seed size) in
  sret (le_astype_int B p).

(** ** Normal and Exponential *)

Record Libm : Type := MkLibm {
  ln : spec_float -> spec_float;
  cos : spec_float -> spec_float;
  sin : spec_float -> spec_float;
  exp : spec_float -> spec_float
}.

(** [np.pi] *)
Definition pi : spec_float := S754_finite false 7074237752028440 (-51).

(** [np.log]: [-inf] at zero, [nan] below it. *)
Definition np_log (L : Libm) (x : spec_float) : spec_float :=
  match x with
  | S754_zero _ => S754_infinity true
  | S754_finite false _ _ => ln L x
  | S754_infinity false => x
  | _ => S754_nan
  end.

Definition np_cos (L : Libm) (x : spec_float) : spec_float :=
  match x with
  | S754_zero _ | S754_finite _ _ _ => cos L x
  | _ => S754_nan
  end.

Definition np_sin (L : Libm) (x : spec_float) : spec_float :=
  match x with
  | S754_zero _ | S754_finite _ _ _ => sin L x
  | _ => S754_nan
  end.

Definition pseudo_normal (L : Libm) (mu sigma : spec_float) (size : Z)
  : sampler (list spec_float) :=
  do* t := perf_counter in
  do* seed1 := lift (clock_seed t) in
  do* U1 := lift (pseudo_uniform (of_int 0) (of_int 1) seed1 size) in
  do* t := perf_counter in
  do* seed2 := lift (clock_seed t) in
  do* U2 := lift (pseudo_uniform (of_int 0) (of_int 1) seed2 size) in
  let R := map (fun u1 => fsqrt (fmul (of_int (-2)) (np_log L u1))) U1 in
  let Z0 := zip_with fmul R
              (map (fun u2 => np_cos L (fmul (fmul (of_int 2) pi) u2)) U2) in
  let Z1 := zip_with fmul R
              (map (fun u2 => np_sin L (fmul (fmul (of_int 2) pi) u2)) U2) in
  let Z0 := map (fun z => fadd (fmul z sigma) mu) Z0 in
  sret Z0.

(** [1/lamb] on a Python float. *)
Definition py_inv (lamb : spec_float) : result spec_float :=
  match lamb with
  | S754_zero _ => Raise ZeroDivisionError
  | _ => Ok (fdiv one lamb)
  end.

Definition pseudo_exp (L : Libm) (lamb : spec_float) (size : Z)
  : sampler (list spec_float) :=
  do* t := perf_counter in
  do* seed := lift (clock_seed t) in
  do* U := lift (pseudo_uniform (of_int 0) (of_int 1) seed size) in
  do* r := lift (py_inv lamb) in
  let X := map (fun u => fmul (SFopp r) (np_log L (fsub one u))) U in
  sret X.

(** ** Poisson *)

(** The loop of [pseudo_poisson]; [P >= th] is [SFleb th P]. *)
Equations poisson_while (th : spec_float) (U : list spec_float) (X : Z)
    (P : spec_float) (i : nat) : result Z by wf (length U - i)%nat lt :=
  poisson_while th U X P i with SFleb th P := {
    | false => Ok X
    | true with inspect (U !! i) := {
        | @exist None _ => Raise IndexError
        | @exist (Some u) Hu =>
            poisson_while th U (X + 1) (fmul u P) (i + 1)%nat } }.
Next Obligation.
  apply lookup_lt_Some in Hu. lia.
Qed.

Fixpoint poisson_for (k : nat) (L : Libm) (alpha : Z) (poisson : list Z)
  : sampler (list Z) :=
  match k with
  | O => sret poisson
  | S k' =>
      do* t := perf_counter in
      do* seed := lift (clock_seed t) in
      do* U := lift (pseudo_uniform (of_int 0) (of_int 1) seed (5 * alpha)) in
      do* X := lift (poisson_while (exp L (of_int (- alpha))) U 0 (of_int 1) 0) in
      poisson_for k' L alpha (poisson ++ [X])
  end.

Definition pseudo_poisson (L : Libm) (alpha size : Z) : sampler (list Z) :=
  poisson_for (Z.to_nat size) L alpha [].

(** ** Reference definitions for the Poisson sampler *)

(** The product of the first [k] draws, multiplied in the order the loop
    multiplies them, starting from [P]. *)
Definition running_product (P : spec_float) (U : list spec_float) (k : nat)
  : spec_float :=
  fold_left (fun P u => fmul u P) (take k U) P.

(** Knuth's counter as the specification words it: start from [P] and [X];
    while [P >= th], multiply [P] by the next draw and increment [X];
    [None] when the draws run out first. *)
Fixpoint knuth_count (th : spec_float) (draws : list spec_float)
    (P : spec_float) (X : Z) : option Z :=
  if SFleb th P then
    match draws with
    | [] => None
    | u :: rest => knuth_count th rest (fmul u P) (X + 1)
    end
  else Some X.

(** [k] draws are the first whose product, started at [P], is not
    [>= th]. *)
Definition first_below (th P : spec_float) (U : list spec_float) (k : nat)
  : Prop :=
  (k <= length U)%nat /\
  SFleb th (running_product P U k) = false /\
  forall j : nat, (j < k)%nat -> SFleb th (running_product P U j) = true.


(** ** An instance of the elementary functions

    Truncated series in binary64, to run the samplers on concrete
    inputs. *)

Definition approx_exp (x : spec_float) : spec_float :=
  match to_int x with
  | Ok z => if 0 <=? z then ratio (193 ^ z) (71 ^ z)
            else ratio (71 ^ (- z)) (193 ^ (- z))
  | Raise _ => S754_nan
  end.

Definition approx_ln (x : spec_float) : spec_float :=
  let y := fdiv (fsub x one) (fadd x one) in
  let y3 := fmul (fmul y y) y in
  let y5 := fmul (fmul y3 y) y in
  fmul (of_int 2)
       (fadd (fadd y (fdiv y3 (of_int 3))) (fdiv y5 (of_int 5))).

Definition approx_cos (x : spec_float) : spec_float :=
  let x2 := fmul x x in
  fadd (fsub one (fdiv x2 (of_int 2))) (fdiv (fmul x2 x2) (of_int 24)).

Definition approx_sin (x : spec_float) : spec_float :=
  let x3 := fmul (fmul x x) x in
  let x5 := fmul (fmul x3 x) x in
  fadd (fsub x (fdiv x3 (of_int 6))) (fdiv x5 (of_int 120)).

Definition approx_libm : Libm :=
  MkLibm approx_ln approx_cos approx_sin approx_exp.

(** A clock that reads the entries of [ts] in turn, then stays at 0. *)
Definition clock_of (ts : list spec_float) : world :=
  World (fun i => default zero (ts !! i)) 0.

(** ** Absolute values of an array *)

(** [np.vectorize(np.abs)(array)] on a one-dimensional array of floats:
    without [otypes], [np.vectorize] refuses an input of size 0. *)
Definition abs_array (array : list spec_float) : result (list spec_float) :=
  match array with
  | [] => Raise ValueError
  | _ => Ok (map SFabs array)
  end.

End B64.

(** * Properties *)

(** ** The engine computes the recurrence *)

Lemma lcg_values_length (mult m seed : Z) (n : nat) :
  length (lcg_values mult m seed n) = n.
Proof. unfold lcg_values. rewrite length_map, length_seq. reflexivity. Qed.

Section Engine.
Variables mult m seed : Z.
Hypothesis m_nz : m <> 0.

Lemma mod_ok (a : Z) : Py.mod_ a m = Ok (a mod m).
Proof. unfold Py.mod_. destruct (Z.eqb_spec m 0); [lia | reflexivity]. Qed.

Lemma truediv_ok (a : Z) : Py.truediv a m = Ok (frac a m).
Proof. unfold Py.truediv. destruct (Z.eqb_spec m 0); [lia | reflexivity]. Qed.

Lemma lcg_state_range (i : nat) :
  0 < m -> 0 <= lcg_state mult m seed i < m.
Proof. intros Hm. destruct i; simpl; apply Z.mod_pos_bound; exact Hm. Qed.

Lemma frac_range (x : Z) : 0 <= x < m -> (0 <= frac x m < 1)%Q.
Proof.
  intros Hx. unfold frac. destruct m as [|p|p] eqn:E; try lia.
  unfold Qdiv, Qinv, Qmult, Qle, Qlt; simpl. lia.
Qed.

Lemma lcg_for_cons (i : nat) (idx : list nat) (x : Z) (U : list Q) :
  lcg_for mult m (i :: idx) x U =
  rbind (Np.setitem U i (frac ((x * mult + 1) mod m) m))
        (lcg_for mult m idx ((x * mult + 1) mod m)).
Proof. simpl. rewrite mod_ok. simpl. rewrite truediv_ok. reflexivity. Qed.

Lemma lcg_values_S (n : nat) :
  lcg_values mult m seed (S n)
  = lcg_values mult m seed n ++ [frac (lcg_state mult m seed n) m].
Proof. unfold lcg_values. rewrite seq_S, map_app. reflexivity. Qed.

(** The loop invariant: once indices [0..a] are written, the buffer holds
    the first [a+1] values of the recurrence followed by zeros. *)
Lemma lcg_for_spec (k : nat) : forall (a n : nat),
  (a + k <= n)%nat ->
  lcg_for mult m (seq (S a) k) (lcg_state mult m seed a)
          (lcg_values mult m seed (S a) ++ replicate (n - a) 0%Q)
  = Ok (lcg_values mult m seed (S a + k) ++ replicate (n - a - k) 0%Q).
Proof.
  induction k as [|k IH]; intros a n Hn.
  - rewrite Nat.add_0_r, Nat.sub_0_r. reflexivity.
  - change (seq (S a) (S k)) with (S a :: seq (S (S a)) k).
    rewrite lcg_for_cons. unfold Np.setitem.
    destruct (decide _) as [Hlt|Hge].
    2:{ exfalso. apply Hge.
        rewrite length_app, lcg_values_length, length_replicate. lia. }
    unfold rbind.
    replace (<[S a:=_]> _)
      with (lcg_values mult m seed (S (S a)) ++ replicate (n - S a) 0%Q).
    + change ((lcg_state mult m seed a * mult + 1) mod m) with (lcg_state mult m seed (S a)).
      rewrite (IH (S a) n) by lia.
      replace (S (S a) + k)%nat with (S a + S k)%nat by lia.
      replace (n - S a - k)%nat with (n - a - S k)%nat by lia.
      reflexivity.
    + rewrite insert_app_r_alt by (rewrite lcg_values_length; lia).
      rewrite lcg_values_length, Nat.sub_diag.
      destruct (n - a)%nat as [|d] eqn:Ed; [lia|].
      replace (n - S a)%nat with d by lia.
      rewrite (lcg_values_S (S a)), <- app_assoc. reflexivity.
Qed.

Lemma engine_ok (size : Z) :
  1 <= size ->
  pseudo_uniform_good mult m seed size
  = Ok (lcg_values mult m seed (Z.to_nat size)).
Proof.
  intros Hs. unfold pseudo_uniform_good, Np.zeros.
  destruct (Z.ltb_spec size 0) as [|_]; [lia|].
  unfold rbind at 1. rewrite mod_ok. unfold rbind at 1.
  rewrite truediv_ok. unfold rbind at 1.
  destruct (Z.to_nat size) as [|n] eqn:En; [lia|].
  unfold Np.setitem. rewrite length_replicate.
  destruct (decide _) as [_|Hge]; [|lia].
  unfold rbind. simpl replicate. simpl insert.
  unfold Py.range. replace (Z.to_nat (size - 1)) with n by lia.
  change (Z.to_nat 1) with 1%nat.
  pose proof (lcg_for_spec n 0 n ltac:(lia)) as H.
  rewrite Nat.sub_0_r, Nat.sub_diag, app_nil_r in H. exact H.
Qed.

Lemma engine_empty : pseudo_uniform_good mult m seed 0 = Raise IndexError.
Proof.
  unfold pseudo_uniform_good. simpl Np.zeros. unfold rbind at 1.
  rewrite mod_ok. unfold rbind at 1. rewrite truediv_ok. reflexivity.
Qed.
End Engine.

Lemma engine_negative (mult m seed size : Z) :
  size < 0 -> pseudo_uniform_good mult m seed size = Raise ValueError.
Proof.
  intros Hs. unfold pseudo_uniform_good, Np.zeros.
  destruct (Z.ltb_spec size 0); [reflexivity | lia].
Qed.

Lemma lcg_values_lookup (mult m seed : Z) (n i : nat) :
  (i < n)%nat ->
  lcg_values mult m seed n !! i = Some (frac (lcg_state mult m seed i) m).
Proof.
  intros Hi. unfold lcg_values. rewrite list_lookup_fmap.
  rewrite lookup_seq_lt by exact Hi. reflexivity.
Qed.

(** ** The uniform sampler *)

Lemma good_mod_nz : good_mod <> 0.
Proof. discriminate. Qed.

Lemma pseudo_uniform_ok (low high : Q) (seed size : Z) :
  1 <= size ->
  pseudo_uniform low high seed size
  = Ok (uniform_draws low high seed (Z.to_nat size)).
Proof.
  intros Hs. unfold pseudo_uniform.
  rewrite (engine_ok good_mult good_mod seed good_mod_nz) by exact Hs.
  reflexivity.
Qed.

Lemma pseudo_uniform_empty (low high : Q) (seed : Z) :
  pseudo_uniform low high seed 0 = Raise IndexError.
Proof.
  unfold pseudo_uniform. rewrite (engine_empty good_mult good_mod seed good_mod_nz). reflexivity.
Qed.

Lemma pseudo_uniform_negative (low high : Q) (seed size : Z) :
  size < 0 -> pseudo_uniform low high seed size = Raise ValueError.
Proof.
  intros Hs. unfold pseudo_uniform. rewrite engine_negative by exact Hs.
  reflexivity.
Qed.

Lemma uniform_draws_length (low high : Q) (seed : Z) (n : nat) :
  length (uniform_draws low high seed n) = n.
Proof. unfold uniform_draws. rewrite length_map. apply lcg_values_length. Qed.

(** ** Seeds *)

Lemma seed_reduction (mult m seed : Z) :
  ((seed mod m) * mult + 1) mod m = (seed * mult + 1) mod m.
Proof.
  destruct (Z.eq_dec m 0) as [->|Hm].
  - rewrite !Z.mod_0_r. reflexivity.
  - rewrite Z.add_mod by exact Hm.
    rewrite Z.mul_mod_idemp_l by exact Hm.
    rewrite <- Z.add_mod by exact Hm. reflexivity.
Qed.

(** C10.  For a modulus [m > 0], the engine's result for a seed [s] is its
    result for [s mod m], whatever the multiplier and the count: the seed
    enters only through [(seed*mult + 1) mod m]. *)
Theorem seed_congruence (mult m seed n : Z) :
  0 < m ->
  pseudo_uniform_good mult m (seed mod m) n
  = pseudo_uniform_good mult m seed n.
Proof.
  intros Hm. unfold pseudo_uniform_good, Py.mod_.
  rewrite seed_reduction. reflexivity.
Qed.

Lemma seed_congruence_witness :
  0 < 11 /\
  pseudo_uniform_good 5 11 (36 mod 11) 4 = pseudo_uniform_good 5 11 36 4.
Proof. split; [lia | apply (seed_congruence 5 11 36 4); lia]. Defined.

(** ** Reading the clock *)

Lemma advance_advance (w : world) (a b : nat) :
  advance (advance w a) b = advance w (a + b).
Proof. unfold advance. simpl. f_equal. lia. Qed.

Lemma seed_at_advance (w : world) (a j : nat) :
  seed_at (advance w a) j = seed_at w (a + j).
Proof. unfold seed_at, advance. simpl. do 2 f_equal. lia. Qed.

Lemma perf_counter_bind {A : Type} (k : Q -> sampler A) (w : world) :
  sbind perf_counter k w = k (trace w (ticks w)) (World (trace w) (S (ticks w))).
Proof. reflexivity. Qed.

Lemma read_seed {A : Type} (k : Z -> sampler A) (w : world) :
  sbind perf_counter (fun t => k (clock_seed t)) w
  = k (seed_at w 0) (advance w 1).
Proof.
  rewrite perf_counter_bind. unfold seed_at, advance.
  rewrite Nat.add_0_r, Nat.add_1_r. reflexivity.
Qed.

Lemma lift_ok_bind {A B : Type} (a : A) (k : A -> sampler B) (w : world) :
  sbind (lift (Ok a)) k w = k a w.
Proof. reflexivity. Qed.

Lemma bernoulli_ok (p : Q) (size : Z) (w : world) :
  1 <= size ->
  pseudo_bernoulli p size w
  = (Ok (le_astype_int (uniform_draws 0 1 (seed_at w 0) (Z.to_nat size)) p),
     advance w 1).
Proof.
  intros Hs. unfold pseudo_bernoulli.
  rewrite (read_seed (fun seed =>
    sbind (lift (pseudo_uniform 0 1 seed size))
          (fun B => sret (le_astype_int B p)))).
  rewrite pseudo_uniform_ok by exact Hs. reflexivity.
Qed.

Lemma binomial_for_no_trials (k : nat) (p : Q) (binom : list Z) (w : world) :
  binomial_for (S k) 0 p binom w = (Raise IndexError, advance w 1).
Proof.
  simpl binomial_for.
  rewrite (read_seed (fun seed =>
    sbind (lift (pseudo_uniform 0 1 seed 0))
          (fun U => binomial_for k 0 p (binom ++ [np_sum (le_astype_int U p)])))).
  rewrite pseudo_uniform_empty. reflexivity.
Qed.

(** C6 (the code departs from it).  With [trials = 0] the Binomial sampler
    does not return [n] zeros: for a probability in [[0, 1]] and a count
    [n >= 1] the first outcome asks the engine for a buffer of size 0, and
    the call ends with the engine's [IndexError] after one clock reading. *)
Theorem binomial_no_trials_raises (p : Q) (size : Z) (w : world) :
  (0 <= p <= 1)%Q -> 1 <= size ->
  pseudo_binomial 0 p size w = (Raise IndexError, advance w 1).
Proof.
  intros _ Hs. unfold pseudo_binomial.
  destruct (Z.to_nat size) as [|k] eqn:E; [lia|].
  apply binomial_for_no_trials.
Qed.

Lemma binomial_no_trials_raises_witness :
  (0 <= 1 # 2 <= 1)%Q /\ 1 <= 3 /\
  pseudo_binomial 0 (1 # 2) 3 (frozen 0) = (Raise IndexError, advance (frozen 0) 1).
Proof.
  split; [split; discriminate|]. split; [lia|].
  apply (binomial_no_trials_raises (1 # 2) 3 (frozen 0)); [split; discriminate | lia].
Defined.

(** C5 (the code departs from it).  For a modulus [m > 0] the engine called
    with count 0 does not return an empty buffer: the unconditional write
    to [U[0]] raises [IndexError]. *)
Theorem engine_zero_count_raises (mult m seed : Z) :
  0 < m -> pseudo_uniform_good mult m seed 0 = Raise IndexError.
Proof. intros Hm. apply engine_empty. lia. Qed.

Lemma engine_zero_count_raises_witness :
  0 < good_mod /\
  pseudo_uniform_good good_mult good_mod 123456789 0 = Raise IndexError.
Proof.
  split; [reflexivity|].
  apply (engine_zero_count_raises good_mult good_mod 123456789). reflexivity.
Defined.

(** ** The Poisson loop *)

Lemma poisson_while_step (th : Q) (U : list Q) (X : Z) (P : Q) (i : nat) :
  poisson_while th U X P i
  = if Qle_bool th P then
      match U !! i with
      | None => Raise IndexError
      | Some u => poisson_while th U (X + 1) (u * P)%Q (i + 1)%nat
      end
    else Ok X.
Proof.
  rewrite poisson_while_equation_1.
  unfold poisson_while_unfold_clause_1.
  destruct (Qle_bool th P); [|reflexivity].
  unfold poisson_while_unfold_clause_1_clause_2, inspect.
  destruct (U !! i); reflexivity.
Qed.

Lemma poisson_while_knuth (th : Q) (U : list Q) (n : nat) :
  forall (X : Z) (P : Q) (i : nat),
    (length U - i <= n)%nat ->
    poisson_while th U X P i
    = match knuth_count th (drop i U) P X with
      | Some X' => Ok X'
      | None => Raise IndexError
      end.
Proof.
  induction n as [|n IH]; intros X P i Hn; rewrite poisson_while_step.
  - rewrite (lookup_ge_None_2 U i) by lia.
    rewrite drop_ge by lia. simpl.
    destruct (Qle_bool th P); reflexivity.
  - destruct (U !! i) as [u|] eqn:Hu.
    + rewrite (drop_S U u i Hu). simpl.
      destruct (Qle_bool th P); [|reflexivity].
      rewrite IH by (apply lookup_lt_Some in Hu; lia).
      rewrite Nat.add_1_r. reflexivity.
    + apply lookup_ge_None in Hu. rewrite drop_ge by lia. simpl.
      destruct (Qle_bool th P); reflexivity.
Qed.

Lemma prod_first_0 (U : list Q) : prod_first U 0 = 1%Q.
Proof. reflexivity. Qed.

Lemma prod_first_S (u : Q) (U : list Q) (k : nat) :
  prod_first (u :: U) (S k) = (u * prod_first U k)%Q.
Proof. reflexivity. Qed.

Lemma knuth_count_sound (th : Q) (draws : list Q) :
  forall (P : Q) (X X' : Z),
    knuth_count th draws P X = Some X' ->
    exists k : nat, X' = X + Z.of_nat k /\ first_below th P draws k.
Proof.
  induction draws as [|u rest IH]; intros P X X'; simpl;
    destruct (Qle_bool th P) eqn:Hc; try discriminate.
  - intros [= <-]. exists 0%nat. split; [lia|]. repeat split.
    + simpl; lia.
    + rewrite prod_first_0, Qmult_1_r. apply Qnot_le_lt. intros Hle.
      apply Qle_bool_iff in Hle. congruence.
    + intros j Hj; lia.
  - intros H. apply IH in H as (k & -> & Hlen & Hlt & Hmin).
    exists (S k). split; [lia|]. repeat split.
    + simpl; lia.
    + rewrite prod_first_S. rewrite Qmult_assoc, (Qmult_comm P u). exact Hlt.
    + intros [|j] Hj.
      * rewrite prod_first_0, Qmult_1_r. apply Qle_bool_iff. exact Hc.
      * rewrite prod_first_S, Qmult_assoc, (Qmult_comm P u).
        apply Hmin. lia.
  - intros [= <-]. exists 0%nat. split; [lia|]. repeat split.
    + simpl; lia.
    + rewrite prod_first_0, Qmult_1_r. apply Qnot_le_lt. intros Hle.
      apply Qle_bool_iff in Hle. congruence.
    + intros j Hj; lia.
Qed.



Section Poisson.
Variable L : Libm.
Variable alpha : Z.
Hypothesis alpha_pos : 0 < alpha.

Lemma poisson_for_step (k : nat) (acc : list Z) (w : world) :
  poisson_for (S k) L alpha acc w
  = match poisson_outcome L alpha w 0 with
    | Some X => poisson_for k L alpha (acc ++ [X]) (advance w 1)
    | None => (Raise IndexError, advance w 1)
    end.
Proof.
  simpl poisson_for.
  rewrite (read_seed (fun seed =>
    sbind (lift (pseudo_uniform 0 1 seed (5 * alpha)))
      (fun U => sbind
         (lift (poisson_while (exp L (inject_Z (- alpha))) U 0 1 0))
         (fun X => poisson_for k L alpha (acc ++ [X]))))).
  rewrite pseudo_uniform_ok by lia. rewrite lift_ok_bind.
  rewrite (poisson_while_knuth _ _ _ 0 1%Q 0%nat (Nat.le_refl _)).
  unfold poisson_outcome.
  change (drop 0 ?l) with l.
  destruct (knuth_count _ _ _ _); reflexivity.
Qed.

Lemma poisson_for_sound (k : nat) :
  forall (acc : list Z) (w : world) (l : list Z) (w' : world),
    poisson_for k L alpha acc w = (Ok l, w') ->
    w' = advance w k /\
    exists xs : list Z,
      l = acc ++ xs /\ length xs = k /\
      forall (j : nat) (X : Z),
        xs !! j = Some X -> poisson_outcome L alpha w j = Some X.
Proof.
  induction k as [|k IH]; intros acc w l w' H.
  - simpl in H. injection H as <- <-. split.
    + unfold advance. rewrite Nat.add_0_r. destruct w; reflexivity.
    + exists []. rewrite app_nil_r. repeat split. intros j X Hj.
      rewrite lookup_nil in Hj. discriminate.
  - rewrite poisson_for_step in H.
    destruct (poisson_outcome L alpha w 0) as [X0|] eqn:H0; [|discriminate].
    apply IH in H as (-> & xs & -> & Hlen & Hxs).
    split; [apply advance_advance|].
    exists (X0 :: xs). rewrite <- app_assoc. repeat split.
    + simpl. lia.
    + intros [|j] X Hj; simpl in Hj.
      * injection Hj as <-. exact H0.
      * apply Hxs in Hj. unfold poisson_outcome in *.
        rewrite seed_at_advance in Hj. exact Hj.
Qed.

End Poisson.

(** C9.  For [alpha > 0] and a count [n >= 1], every integer the Poisson
    sampler returns is at least 1: the running product starts at 1, which
    is [>= e^(-alpha)], so the loop body runs at least once per outcome.
    That [e^(-alpha) <= 1] is asked of the [exp] in use. *)
Theorem poisson_at_least_one (L : Libm) (alpha size : Z) (w w' : world)
    (l : list Z) :
  0 < alpha -> 1 <= size ->
  (exp L (inject_Z (- alpha)) <= 1)%Q ->
  pseudo_poisson L alpha size w = (Ok l, w') ->
  Forall (fun X => 1 <= X) l.
Proof.
  intros Ha Hs Hth H. unfold pseudo_poisson in H.
  apply (poisson_for_sound L alpha Ha) in H as (_ & xs & -> & _ & Hxs).
  rewrite app_nil_l. apply Forall_lookup. intros j X Hj.
  apply Hxs, knuth_count_sound in Hj as (k & -> & _ & Hlt & _).
  destruct k as [|k]; [|lia].
  exfalso. rewrite prod_first_0, Qmult_1_l in Hlt.
  apply (Qlt_not_le _ _ Hlt Hth).
Qed.

Lemma poisson_at_least_one_witness :
  0 < 2 /\ 1 <= 3 /\
  (exp approx_libm (inject_Z (- 2)) <= 1)%Q /\
  pseudo_poisson approx_libm 2 3 (clock_of [1 # 4; 1 # 2; 3 # 4]%Q)
  = (Ok [2; 2; 2], advance (clock_of [1 # 4; 1 # 2; 3 # 4]%Q) 3) /\
  Forall (fun X => 1 <= X) [2; 2; 2].
Proof.
  assert (H : pseudo_poisson approx_libm 2 3
                (clock_of [1 # 4; 1 # 2; 3 # 4]%Q)
              = (Ok [2; 2; 2], advance (clock_of [1 # 4; 1 # 2; 3 # 4]%Q) 3))
    by (vm_compute; reflexivity).
  assert (Hth : (exp approx_libm (inject_Z (- 2)) <= 1)%Q)
    by (vm_compute; discriminate).
  split; [lia|]. split; [lia|]. split; [exact Hth|]. split; [exact H|].
  apply (poisson_at_least_one approx_libm 2 3
           (clock_of [1 # 4; 1 # 2; 3 # 4]%Q)
           (advance (clock_of [1 # 4; 1 # 2; 3 # 4]%Q) 3) [2; 2; 2]);
    [lia | lia | exact Hth | exact H].
Defined.

(** * Further properties of the code *)

(** ** More on the engine *)

Lemma engine_cases (mult m seed size : Z) :
  pseudo_uniform_good mult m seed size
  = if size <? 0 then Raise ValueError
    else if m =? 0 then Raise ZeroDivisionError
    else if size =? 0 then Raise IndexError
    else Ok (lcg_values mult m seed (Z.to_nat size)).
Proof.
  destruct (Z.ltb_spec size 0) as [Hneg|Hnn].
  - apply engine_negative. exact Hneg.
  - destruct (Z.eqb_spec m 0) as [->|Hm].
    + unfold pseudo_uniform_good, Np.zeros.
      destruct (Z.ltb_spec size 0); [lia | reflexivity].
    + destruct (Z.eqb_spec size 0) as [->|Hs].
      * apply engine_empty. exact Hm.
      * apply engine_ok; [exact Hm | lia].
Qed.


(** A repeated state repeats for ever. *)
Lemma lcg_state_repeats (mult m seed : Z) (j k : nat) :
  lcg_state mult m seed (j + k) = lcg_state mult m seed j ->
  forall i : nat, (j <= i)%nat ->
    lcg_state mult m seed (i + k) = lcg_state mult m seed i.
Proof.
  intros H i Hi. induction Hi as [|i Hi IH]; [exact H|].
  change (S i + k)%nat with (S (i + k)). simpl. rewrite IH. reflexivity.
Qed.

Lemma duplicate_or_NoDup (l : list Z) :
  NoDup l \/
  exists (i j : nat) (x : Z), (i < j)%nat /\ l !! i = Some x /\ l !! j = Some x.
Proof.
  induction l as [|a l IH]; [left; constructor|].
  destruct (decide (a ∈ l)) as [Hin|Hnin].
  - right. apply list_elem_of_lookup in Hin as [j Hj].
    exists 0%nat, (S j), a. split; [lia|]. split; [reflexivity | exact Hj].
  - destruct IH as [Hnd|(i & j & x & Hij & Hi & Hj)].
    + left. constructor; assumption.
    + right. exists (S i), (S j), x. split; [lia|]. split; assumption.
Qed.

Lemma lcg_state_collision (mult m seed : Z) :
  0 < m ->
  exists j k : nat,
    (1 <= k)%nat /\ Z.of_nat (j + k) <= m /\
    lcg_state mult m seed (j + k) = lcg_state mult m seed j.
Proof.
  intros Hm.
  set (xs := map (lcg_state mult m seed) (seq 0 (S (Z.to_nat m)))).
  destruct (duplicate_or_NoDup xs) as [Hnd|(i & j & x & Hij & Hi & Hj)].
  - exfalso.
    assert (Hsub : xs ⊆+ seqZ 0 m).
    { apply NoDup_submseteq; [exact Hnd|].
      intros x Hx. unfold xs in Hx. apply list_elem_of_fmap in Hx as (i & -> & _).
      apply elem_of_seqZ. pose proof (lcg_state_range mult m seed i Hm). lia. }
    apply submseteq_length in Hsub.
    unfold xs in Hsub. rewrite length_map, length_seq, length_seqZ in Hsub. lia.
  - unfold xs in Hi, Hj. rewrite list_lookup_fmap in Hi, Hj.
    assert (Hjl : (j < S (Z.to_nat m))%nat).
    { destruct (decide (j < S (Z.to_nat m))%nat) as [|Hge]; [assumption|].
      rewrite lookup_seq_ge in Hj by lia. discriminate. }
    rewrite lookup_seq_lt in Hi by lia. rewrite lookup_seq_lt in Hj by lia.
    simpl in Hi, Hj. injection Hi as Hi. injection Hj as Hj.
    exists i, (j - i)%nat. split; [lia|]. split; [lia|].
    replace (i + (j - i))%nat with j by lia. congruence.
Qed.

(** X3.  For a modulus [m > 0] the engine's output is eventually periodic
    with a period of at most [m]: there are [j] and [k >= 1] with
    [j + k <= m] such that, in every buffer the engine returns for these
    parameters, entry [i + k] equals entry [i] for all [i >= j]. *)
Theorem engine_eventually_periodic (mult m seed : Z) :
  0 < m ->
  exists j k : nat,
    (1 <= k)%nat /\ Z.of_nat (j + k) <= m /\
    forall (n : Z) (U : list Q),
      pseudo_uniform_good mult m seed n = Ok U ->
      forall i : nat, (j <= i)%nat -> (i + k < length U)%nat ->
        U !! (i + k)%nat = U !! i.
Proof.
  intros Hm. destruct (lcg_state_collision mult m seed Hm) as (j & k & Hk & Hjk & Hrep).
  exists j, k. split; [exact Hk|]. split; [exact Hjk|].
  intros n U HU i Hi Hlen. rewrite engine_cases in HU.
  destruct (Z.ltb_spec n 0); [discriminate|].
  destruct (Z.eqb_spec m 0); [discriminate|].
  destruct (Z.eqb_spec n 0); [discriminate|].
  injection HU as <-. rewrite lcg_values_length in Hlen.
  rewrite !lcg_values_lookup by lia.
  rewrite (lcg_state_repeats mult m seed j k Hrep i Hi). reflexivity.
Qed.

Lemma engine_eventually_periodic_witness :
  0 < good_mod /\
  exists j k : nat,
    (1 <= k)%nat /\ Z.of_nat (j + k) <= good_mod /\
    forall (n : Z) (U : list Q),
      pseudo_uniform_good good_mult good_mod 123456789 n = Ok U ->
      forall i : nat, (j <= i)%nat -> (i + k < length U)%nat ->
        U !! (i + k)%nat = U !! i.
Proof.
  split; [reflexivity|].
  apply (engine_eventually_periodic good_mult good_mod 123456789). reflexivity.
Defined.

Lemma bad_period_step (x : Z) :
  0 <= x < 11 ->
  (((((x * 5 + 1) mod 11 * 5 + 1) mod 11 * 5 + 1) mod 11 * 5 + 1) mod 11
     * 5 + 1) mod 11 = x.
Proof.
  intros Hx.
  assert (x = 0 \/ x = 1 \/ x = 2 \/ x = 3 \/ x = 4 \/ x = 5 \/ x = 6 \/
          x = 7 \/ x = 8 \/ x = 9 \/ x = 10) as H by lia.
  repeat (destruct H as [->|H]; [reflexivity|]). subst x. reflexivity.
Qed.

Lemma bad_state_period (seed : Z) (i : nat) :
  lcg_state bad_mult bad_mod seed (i + 5) = lcg_state bad_mult bad_mod seed i.
Proof.
  apply (lcg_state_repeats bad_mult bad_mod seed 0 5); [|lia].
  unfold bad_mult, bad_mod. cbn [Nat.add lcg_state].
  apply bad_period_step. apply Z.mod_pos_bound. lia.
Qed.

(** X4.  With its default multiplier 5 and modulus 11 the bad generator
    repeats every 5 entries, whatever the seed and the count: entry [i + 5]
    equals entry [i], so a buffer holds at most 5 distinct values. *)
Theorem bad_generator_period (seed n : Z) (U : list Q) :
  pseudo_uniform_bad bad_mult bad_mod seed n = Ok U ->
  forall i : nat, (i + 5 < length U)%nat -> U !! (i + 5)%nat = U !! i.
Proof.
  change (pseudo_uniform_bad bad_mult bad_mod seed n)
    with (pseudo_uniform_good bad_mult bad_mod seed n).
  rewrite engine_cases.
  destruct (Z.ltb_spec n 0); [discriminate|].
  destruct (Z.eqb_spec bad_mod 0); [discriminate|].
  destruct (Z.eqb_spec n 0); [discriminate|].
  intros [= <-] i Hi. rewrite lcg_values_length in Hi.
  rewrite !lcg_values_lookup by lia. rewrite bad_state_period. reflexivity.
Qed.

Lemma bad_generator_period_witness :
  pseudo_uniform_bad bad_mult bad_mod 3 12
  = Ok (lcg_values bad_mult bad_mod 3 12) /\
  forall i : nat, (i + 5 < length (lcg_values bad_mult bad_mod 3 12))%nat ->
    lcg_values bad_mult bad_mod 3 12 !! (i + 5)%nat
    = lcg_values bad_mult bad_mod 3 12 !! i.
Proof.
  assert (H : pseudo_uniform_bad bad_mult bad_mod 3 12
              = Ok (lcg_values bad_mult bad_mod 3 12)) by reflexivity.
  split; [exact H|].
  apply (bad_generator_period 3 12 _ H).
Defined.

(** ** Truncation to an integer *)

Lemma py_int_floor (q : Q) : (0 <= q)%Q -> py_int q = Qfloor q.
Proof.
  destruct q as [n d]. unfold Qle, py_int, Qfloor. simpl.
  intros H. apply Z.quot_div_nonneg; lia.
Qed.

(** ** The sample picker *)

Lemma scaled_draw_floor (l x m : Z) :
  0 < m ->
  Qfloor (0 + (inject_Z l - 0) * frac x m) = l * x / m.
Proof.
  intros Hm. destruct m as [|p|p]; try lia.
  transitivity (Qfloor ((l * x) # p)); [|reflexivity].
  apply Qfloor_comp. unfold frac.
  rewrite (Qmake_Qdiv (l * x) p), inject_Z_mult.
  field. discriminate.
Qed.

Lemma scaled_draw_nonneg (l x m : Z) :
  0 < m -> 0 <= l -> 0 <= x < m ->
  (0 <= 0 + (inject_Z l - 0) * frac x m)%Q.
Proof.
  intros Hm Hl Hx. destruct (frac_range m ltac:(lia) x Hx) as [Hf _].
  assert (inject_Z 0 <= inject_Z l)%Q by (rewrite <- Zle_Qle; exact Hl).
  change (inject_Z 0) with 0%Q in *.
  nra.
Qed.

Lemma sample_pick_index {A : Type} (lst : list A) (w : world) :
  sample_pick lst w
  = (list_getitem lst
       (Z.of_nat (length lst)
        * ((seed_at w 0 * good_mult + 1) mod good_mod) / good_mod),
     advance w 1).
Proof.
  unfold sample_pick, perf_counter.
  rewrite pseudo_uniform_ok by lia.
  change (Z.to_nat 1) with 1%nat.
  unfold uniform_draws, lcg_values. simpl map. unfold array_int.
  unfold seed_at, advance. rewrite Nat.add_0_r, Nat.add_1_r.
  f_equal. f_equal.
  assert (Hx : 0 <= lcg_state good_mult good_mod
                      (clock_seed (trace w (ticks w))) 0 < good_mod)
    by (apply lcg_state_range; reflexivity).
  rewrite py_int_floor
    by (apply scaled_draw_nonneg; [reflexivity | lia | exact Hx]).
  apply scaled_draw_floor. reflexivity.
Qed.

(** X7.  On the empty list, [sample_pick] raises [IndexError] (from
    [lst[0]]) after one clock reading. *)
Theorem sample_pick_empty {A : Type} (w : world) :
  sample_pick (@nil A) w = (inr (Engine IndexError), advance w 1).
Proof. rewrite sample_pick_index. reflexivity. Qed.

(** ** Bernoulli and Binomial on a valid configuration *)

Lemma le_astype_length (U : list Q) (p : Q) :
  length (le_astype_int U p) = length U.
Proof. unfold le_astype_int. apply length_map. Qed.

Lemma le_astype_bits (U : list Q) (p : Q) :
  Forall (fun b => b = 0 \/ b = 1) (le_astype_int U p).
Proof.
  unfold le_astype_int. apply Forall_fmap, Forall_forall. intros u _. simpl.
  destruct (Qle_bool u p); auto.
Qed.

Lemma le_astype_monotone (U : list Q) (p q : Q) :
  (p <= q)%Q -> Forall2 Z.le (le_astype_int U p) (le_astype_int U q).
Proof.
  intros Hpq. unfold le_astype_int.
  apply Forall2_fmap, Forall2_same_length_lookup. split; [reflexivity|].
  intros i u u' Hu Hu'. rewrite Hu in Hu'. injection Hu' as <-.
  destruct (Qle_bool u p) eqn:Ep.
  - apply Qle_bool_iff in Ep.
    assert (Qle_bool u q = true) as ->
      by (apply Qle_bool_iff; eapply Qle_trans; eassumption).
    lia.
  - destruct (Qle_bool u q); lia.
Qed.

Lemma np_sum_bits (Y : list Z) :
  Forall (fun b => b = 0 \/ b = 1) Y -> 0 <= np_sum Y <= Z.of_nat (length Y).
Proof.
  induction 1 as [|b Y Hb _ IH]; simpl; [lia|].
  unfold np_sum in *. simpl. lia.
Qed.

(** X8.  For a count [n >= 1] the Bernoulli sampler reads the clock once and
    returns [n] values, each 0 or 1; and on the same clock reading a larger
    [p] never turns a 1 into a 0. *)
Theorem bernoulli_monotone (p q : Q) (n : Z) (w : world) :
  1 <= n -> (p <= q)%Q ->
  exists B B' : list Z,
    pseudo_bernoulli p n w = (Ok B, advance w 1) /\
    pseudo_bernoulli q n w = (Ok B', advance w 1) /\
    Z.of_nat (length B) = n /\
    Forall (fun b => b = 0 \/ b = 1) B /\
    Forall2 Z.le B B'.
Proof.
  intros Hn Hpq. rewrite !bernoulli_ok by exact Hn.
  eexists _, _. split; [reflexivity|]. split; [reflexivity|].
  rewrite le_astype_length, uniform_draws_length.
  split; [lia|]. split; [apply le_astype_bits|].
  apply le_astype_monotone. exact Hpq.
Qed.

Lemma bernoulli_monotone_witness :
  1 <= 4 /\ (1 # 5 <= 1 # 2)%Q /\
  exists B B' : list Z,
    pseudo_bernoulli (1 # 5) 4 (frozen (1 # 2))
    = (Ok B, advance (frozen (1 # 2)) 1) /\
    pseudo_bernoulli (1 # 2) 4 (frozen (1 # 2))
    = (Ok B', advance (frozen (1 # 2)) 1) /\
    Z.of_nat (length B) = 4 /\
    Forall (fun b => b = 0 \/ b = 1) B /\
    Forall2 Z.le B B'.
Proof.
  split; [lia|]. split; [discriminate|].
  apply (bernoulli_monotone (1 # 5) (1 # 2) 4 (frozen (1 # 2)));
    [lia | discriminate].
Defined.

Lemma binomial_for_ok (n : Z) (p : Q) (k : nat) :
  1 <= n ->
  forall (binom : list Z) (w : world),
    binomial_for k n p binom w
    = (Ok (binom ++
           map (fun j => np_sum (le_astype_int
                  (uniform_draws 0 1 (seed_at w j) (Z.to_nat n)) p))
               (seq 0 k)),
       advance w k).
Proof.
  intros Hn. induction k as [|k IH]; intros binom w.
  - simpl. unfold sret, advance. rewrite app_nil_r, Nat.add_0_r.
    destruct w; reflexivity.
  - simpl binomial_for.
    rewrite (read_seed (fun seed =>
      sbind (lift (pseudo_uniform 0 1 seed n))
        (fun U => binomial_for k n p
                    (binom ++ [np_sum (le_astype_int U p)])))).
    rewrite pseudo_uniform_ok by exact Hn. rewrite lift_ok_bind, IH.
    rewrite advance_advance, <- app_assoc. f_equal. f_equal. f_equal.
    simpl. f_equal. rewrite <- fmap_S_seq, <- list_fmap_compose.
    apply list_fmap_ext. intros i j _. simpl.
    rewrite seed_at_advance. reflexivity.
Qed.

(** X9.  With [n >= 1] trials the Binomial sampler never fails: it reads the
    clock once per outcome and returns [size] integers (none when
    [size <= 0]), each between 0 and [n], the [j]-th being the sum of what
    the Bernoulli sampler returns for [n] values at the [j]-th clock
    reading. *)
Theorem binomial_counts_successes (n : Z) (p : Q) (size : Z) (w : world) :
  1 <= n ->
  exists l : list Z,
    pseudo_binomial n p size w = (Ok l, advance w (Z.to_nat size)) /\
    length l = Z.to_nat size /\
    Forall (fun b => 0 <= b <= n) l /\
    forall j : nat, (j < Z.to_nat size)%nat ->
      exists B : list Z,
        pseudo_bernoulli p n (advance w j) = (Ok B, advance w (S j)) /\
        l !! j = Some (np_sum B).
Proof.
  intros Hn. unfold pseudo_binomial. rewrite binomial_for_ok by exact Hn.
  eexists. split; [reflexivity|]. rewrite app_nil_l.
  split; [rewrite length_map, length_seq; reflexivity|]. split.
  - apply Forall_fmap, Forall_forall. intros j _. simpl.
    pose proof (np_sum_bits _ (le_astype_bits
      (uniform_draws 0 1 (seed_at w j) (Z.to_nat n)) p)) as H.
    rewrite le_astype_length, uniform_draws_length in H. lia.
  - intros j Hj. rewrite bernoulli_ok by exact Hn.
    eexists. split.
    + rewrite advance_advance, Nat.add_1_r, seed_at_advance, Nat.add_0_r.
      reflexivity.
    + rewrite list_lookup_fmap, lookup_seq_lt by exact Hj. reflexivity.
Qed.

Lemma binomial_counts_successes_witness :
  1 <= 100 /\
  exists l : list Z,
    pseudo_binomial 100 (3 # 4) 3 (clock_of [1 # 4; 1 # 2; 3 # 4]%Q)
    = (Ok l, advance (clock_of [1 # 4; 1 # 2; 3 # 4]%Q) (Z.to_nat 3)) /\
    length l = Z.to_nat 3 /\
    Forall (fun b => 0 <= b <= 100) l /\
    forall j : nat, (j < Z.to_nat 3)%nat ->
      exists B : list Z,
        pseudo_bernoulli (3 # 4) 100
          (advance (clock_of [1 # 4; 1 # 2; 3 # 4]%Q) j)
        = (Ok B, advance (clock_of [1 # 4; 1 # 2; 3 # 4]%Q) (S j)) /\
        l !! j = Some (np_sum B).
Proof.
  split; [lia|].
  apply (binomial_counts_successes 100 (3 # 4) 3
           (clock_of [1 # 4; 1 # 2; 3 # 4]%Q)).
  lia.
Defined.

(** ** A count that is not positive *)

Lemma pseudo_uniform_no_count (low high : Q) (seed size : Z) :
  size <= 0 ->
  pseudo_uniform low high seed size
  = Raise (if size =? 0 then IndexError else ValueError).
Proof.
  intros Hs. destruct (Z.eqb_spec size 0) as [->|Hne].
  - apply pseudo_uniform_empty.
  - apply pseudo_uniform_negative. lia.
Qed.

(** X10.  With a count [size <= 0] the Binomial and Poisson samplers return
    the empty list without reading the clock, whatever their other
    arguments, while the Bernoulli, Normal and Exponential samplers fail
    after one clock reading: [IndexError] for 0, [ValueError] below 0. *)
Theorem count_not_positive (L : Libm) (n alpha size : Z) (p mu sigma lamb : Q)
    (w : world) :
  size <= 0 ->
  let e := if size =? 0 then IndexError else ValueError in
  pseudo_binomial n p size w = (Ok [], w) /\
  pseudo_poisson L alpha size w = (Ok [], w) /\
  pseudo_bernoulli p size w = (Raise e, advance w 1) /\
  pseudo_normal L mu sigma size w = (Raise e, advance w 1) /\
  pseudo_exp L lamb size w = (Raise e, advance w 1).
Proof.
  intros Hs e. unfold pseudo_binomial, pseudo_poisson.
  replace (Z.to_nat size) with 0%nat by lia.
  split; [reflexivity|]. split; [reflexivity|].
  assert (Hw : World (trace w) (S (ticks w)) = advance w 1)
    by (unfold advance; rewrite Nat.add_1_r; reflexivity).
  repeat split.
  - cbv beta iota zeta delta [pseudo_bernoulli sbind perf_counter lift sret].
    rewrite pseudo_uniform_no_count by exact Hs. rewrite Hw. reflexivity.
  - cbv beta iota zeta delta [pseudo_normal sbind perf_counter lift sret].
    rewrite pseudo_uniform_no_count by exact Hs. rewrite Hw. reflexivity.
  - cbv beta iota zeta delta [pseudo_exp sbind perf_counter lift sret].
    rewrite pseudo_uniform_no_count by exact Hs. rewrite Hw. reflexivity.
Qed.

Lemma count_not_positive_witness :
  0 <= 0 /\
  pseudo_binomial (-3) (7 # 2) 0 (frozen 0) = (Ok [], frozen 0) /\
  pseudo_bernoulli (1 # 2) 0 (frozen 0)
  = (Raise IndexError, advance (frozen 0) 1).
Proof.
  pose proof (count_not_positive approx_libm (-3) 0 0 (7 # 2) 0 1 1 (frozen 0)
                ltac:(lia)) as (Hb & _ & _).
  pose proof (count_not_positive approx_libm 1 1 0 (1 # 2) 0 1 1 (frozen 0)
                ltac:(lia)) as (_ & _ & Hr & _).
  split; [lia|]. split; [exact Hb | exact Hr].
Defined.

(** ** The Exponential sampler *)

(** X11.  With rate 0 and a count [n >= 1] the Exponential sampler raises
    [ZeroDivisionError], after the clock was read and the draws made. *)
Theorem exp_zero_rate (L : Libm) (lamb : Q) (size : Z) (w : world) :
  1 <= size -> (lamb == 0)%Q ->
  pseudo_exp L lamb size w = (Raise ZeroDivisionError, advance w 1).
Proof.
  intros Hs Hl.
  cbv beta iota zeta delta [pseudo_exp sbind perf_counter lift sret].
  rewrite pseudo_uniform_ok by exact Hs. cbv beta iota.
  unfold py_inv. apply Qeq_bool_iff in Hl. rewrite Hl.
  unfold advance. rewrite Nat.add_1_r. reflexivity.
Qed.

Lemma exp_zero_rate_witness :
  1 <= 5 /\ (0 == 0)%Q /\
  pseudo_exp approx_libm 0 5 (frozen 0)
  = (Raise ZeroDivisionError, advance (frozen 0) 1).
Proof.
  split; [lia|]. split; [reflexivity|].
  apply (exp_zero_rate approx_libm 0 5 (frozen 0)); [lia | reflexivity].
Defined.

(** ** The Poisson draw budget *)





(** X15.  For [alpha > 0], whenever the Poisson sampler returns, it has read
    the clock once per outcome and each of its [size] values lies between
    0 and the draw budget [5*alpha]. *)
Theorem poisson_within_budget (L : Libm) (alpha size : Z) (w w' : world)
    (l : list Z) :
  0 < alpha ->
  pseudo_poisson L alpha size w = (Ok l, w') ->
  w' = advance w (Z.to_nat size) /\
  length l = Z.to_nat size /\
  Forall (fun X => 0 <= X <= 5 * alpha) l.
Proof.
  intros Ha H. unfold pseudo_poisson in H.
  apply (poisson_for_sound L alpha Ha) in H as (-> & xs & -> & Hlen & Hxs).
  split; [reflexivity|]. rewrite app_nil_l. split; [exact Hlen|].
  apply Forall_lookup. intros j X Hj.
  apply Hxs, knuth_count_sound in Hj as (k & -> & Hk & _).
  rewrite uniform_draws_length in Hk. lia.
Qed.

Lemma poisson_within_budget_witness :
  0 < 2 /\
  pseudo_poisson approx_libm 2 3
    (clock_of [123456789 # 1000000000; 1 # 3; 7 # 8]%Q)
  = (Ok [4; 4; 1],
     advance (clock_of [123456789 # 1000000000; 1 # 3; 7 # 8]%Q) 3) /\
  Forall (fun X => 0 <= X <= 5 * 2) [4; 4; 1].
Proof.
  assert (H : pseudo_poisson approx_libm 2 3
                (clock_of [123456789 # 1000000000; 1 # 3; 7 # 8]%Q)
              = (Ok [4; 4; 1],
                 advance (clock_of [123456789 # 1000000000; 1 # 3; 7 # 8]%Q) 3))
    by (vm_compute; reflexivity).
  split; [lia|]. split; [exact H|].
  apply (poisson_within_budget approx_libm 2 3 _ _ _ ltac:(lia) H).
Defined.

(** * The code in binary64 *)

(** ** The engine *)

Lemma b64_values_length (mult m seed : Z) (n : nat) :
  length (B64.lcg_values mult m seed n) = n.
Proof. unfold B64.lcg_values. rewrite length_map, length_seq. reflexivity. Qed.

Lemma b64_values_lookup (mult m seed : Z) (n i : nat) :
  (i < n)%nat ->
  B64.lcg_values mult m seed n !! i
  = Some (B64.ratio (lcg_state mult m seed i) m).
Proof.
  intros Hi. unfold B64.lcg_values. rewrite list_lookup_fmap.
  rewrite lookup_seq_lt by exact Hi. reflexivity.
Qed.

Lemma b64_values_S (mult m seed : Z) (n : nat) :
  B64.lcg_values mult m seed (S n)
  = B64.lcg_values mult m seed n ++ [B64.ratio (lcg_state mult m seed n) m].
Proof. unfold B64.lcg_values. rewrite seq_S, map_app. reflexivity. Qed.

Lemma b64_mod_ok (a m : Z) : m <> 0 -> B64.int_mod a m = B64.Ok (a mod m).
Proof.
  intros Hm. unfold B64.int_mod. destruct (Z.eqb_spec m 0); [lia | reflexivity].
Qed.

Lemma b64_truediv_ok (a m : Z) :
  m <> 0 -> B64.int_truediv a m = B64.Ok (B64.ratio a m).
Proof.
  intros Hm. unfold B64.int_truediv.
  destruct (Z.eqb_spec m 0); [lia | reflexivity].
Qed.

Lemma b64_for_cons (mult m : Z) (i : nat) (idx : list nat) (x : Z)
    (U : list spec_float) :
  m <> 0 ->
  B64.lcg_for mult m (i :: idx) x U
  = B64.rbind (B64.setitem U i (B64.ratio ((x * mult + 1) mod m) m))
              (B64.lcg_for mult m idx ((x * mult + 1) mod m)).
Proof.
  intros Hm. simpl. rewrite b64_mod_ok by exact Hm. simpl.
  rewrite b64_truediv_ok by exact Hm. reflexivity.
Qed.

Lemma b64_for_spec (mult m seed : Z) (k : nat) :
  m <> 0 ->
  forall a n : nat,
    (a + k <= n)%nat ->
    B64.lcg_for mult m (seq (S a) k) (lcg_state mult m seed a)
      (B64.lcg_values mult m seed (S a) ++ replicate (n - a) B64.zero)
    = B64.Ok (B64.lcg_values mult m seed (S a + k)
              ++ replicate (n - a - k) B64.zero).
Proof.
  intros Hm. induction k as [|k IH]; intros a n Hn.
  - rewrite Nat.add_0_r, Nat.sub_0_r. reflexivity.
  - change (seq (S a) (S k)) with (S a :: seq (S (S a)) k).
    rewrite b64_for_cons by exact Hm. unfold B64.setitem.
    destruct (decide _) as [Hlt|Hge].
    2:{ exfalso. apply Hge.
        rewrite length_app, b64_values_length, length_replicate. lia. }
    unfold B64.rbind.
    replace (<[S a:=_]> _)
      with (B64.lcg_values mult m seed (S (S a))
            ++ replicate (n - S a) B64.zero).
    + change ((lcg_state mult m seed a * mult + 1) mod m)
        with (lcg_state mult m seed (S a)).
      rewrite (IH (S a) n) by lia.
      replace (S (S a) + k)%nat with (S a + S k)%nat by lia.
      replace (n - S a - k)%nat with (n - a - S k)%nat by lia.
      reflexivity.
    + rewrite insert_app_r_alt by (rewrite b64_values_length; lia).
      rewrite b64_values_length, Nat.sub_diag.
      destruct (n - a)%nat as [|d] eqn:Ed; [lia|].
      replace (n - S a)%nat with d by lia.
      rewrite (b64_values_S mult m seed (S a)), <- app_assoc. reflexivity.
Qed.

Lemma b64_engine_cases (mult m seed size : Z) :
  B64.pseudo_uniform_good mult m seed size
  = if size <? 0 then B64.Raise B64.ValueError
    else if m =? 0 then B64.Raise B64.ZeroDivisionError
    else if size =? 0 then B64.Raise B64.IndexError
    else B64.Ok (B64.lcg_values mult m seed (Z.to_nat size)).
Proof.
  unfold B64.pseudo_uniform_good, B64.zeros.
  destruct (Z.ltb_spec size 0) as [Hneg|Hnn]; [reflexivity|].
  unfold B64.rbind at 1. unfold B64.int_mod, B64.int_truediv.
  destruct (Z.eqb_spec m 0) as [->|Hm]; [reflexivity|].
  unfold B64.rbind at 1 2.
  destruct (Z.eqb_spec size 0) as [->|Hs]; [reflexivity|].
  destruct (Z.to_nat size) as [|n] eqn:En; [lia|].
  unfold B64.setitem. rewrite length_replicate.
  destruct (decide _) as [_|Hge]; [|lia].
  unfold B64.rbind. simpl replicate. simpl insert.
  unfold Py.range. replace (Z.to_nat (size - 1)) with n by lia.
  change (Z.to_nat 1) with 1%nat.
  pose proof (b64_for_spec mult m seed n Hm 0 n ltac:(lia)) as H.
  rewrite Nat.sub_0_r, Nat.sub_diag, app_nil_r in H. exact H.
Qed.

(** ** Rounding a quotient below 1 *)

Lemma digits2_bounds (p : positive) :
  2 ^ (Zpos (digits2_pos p) - 1) <= Zpos p < 2 ^ Zpos (digits2_pos p).
Proof.
  induction p as [p IH|p IH|]; simpl digits2_pos.
  - rewrite Pos2Z.inj_succ. change (Zpos p~1) with (2 * Zpos p + 1).
    replace (Z.succ (Zpos (digits2_pos p)) - 1)
      with (Z.succ (Zpos (digits2_pos p) - 1)) by lia.
    rewrite !Z.pow_succ_r by lia. lia.
  - rewrite Pos2Z.inj_succ. change (Zpos p~0) with (2 * Zpos p).
    replace (Z.succ (Zpos (digits2_pos p)) - 1)
      with (Z.succ (Zpos (digits2_pos p) - 1)) by lia.
    rewrite !Z.pow_succ_r by lia. lia.
  - simpl. lia.
Qed.

Lemma digits2_unique (p : positive) (d : Z) :
  2 ^ (d - 1) <= Zpos p < 2 ^ d -> 0 < d -> Zpos (digits2_pos p) = d.
Proof.
  intros [Hlo Hhi] Hd. pose proof (digits2_bounds p) as [Blo Bhi].
  set (d' := Zpos (digits2_pos p)) in *.
  assert (0 < d') by (unfold d'; lia).
  destruct (Z.lt_trichotomy d' d) as [Hlt|[Heq|Hgt]]; [|exact Heq|].
  - assert (2 ^ d' <= 2 ^ (d - 1)) by (apply Z.pow_le_mono_r; lia). lia.
  - assert (2 ^ d <= 2 ^ (d' - 1)) by (apply Z.pow_le_mono_r; lia). lia.
Qed.

Lemma Zdigits2_53 (q : Z) : 2 ^ 52 <= q < 2 ^ 53 -> Zdigits2 q = 53.
Proof.
  intros H. destruct q as [|p|p]; try lia.
  apply (digits2_unique p 53); [exact H | lia].
Qed.

Lemma Zdigits2_54 (q : Z) : 2 ^ 53 <= q < 2 ^ 54 -> Zdigits2 q = 54.
Proof.
  intros H. destruct q as [|p|p]; try lia.
  apply (digits2_unique p 54); [exact H | lia].
Qed.

Lemma shr_fexp_53 (q e : Z) (l : location) :
  2 ^ 52 <= q < 2 ^ 53 -> -1074 <= e ->
  shr_fexp 53 1024 q e l = (shr_record_of_loc q l, e).
Proof.
  intros Hq He. unfold shr_fexp. rewrite (Zdigits2_53 q Hq).
  unfold fexp, emin.
  replace (Z.max (53 + e - 53) (3 - 1024 - 53) - e) with 0 by lia.
  reflexivity.
Qed.

Lemma shr_fexp_54 (q e : Z) (l : location) :
  2 ^ 53 <= q < 2 ^ 54 -> -1075 <= e ->
  shr_fexp 53 1024 q e l = (shr_1 (shr_record_of_loc q l), e + 1).
Proof.
  intros Hq He. unfold shr_fexp. rewrite (Zdigits2_54 q Hq).
  unfold fexp, emin.
  replace (Z.max (54 + e - 53) (3 - 1024 - 53) - e) with 1 by lia.
  reflexivity.
Qed.

Lemma shr_1_half (q : Z) (l : location) :
  0 < q -> shr_m (shr_1 (shr_record_of_loc q l)) = q / 2.
Proof.
  intros Hq. rewrite <- Z.div2_div.
  destruct q as [|[p|p|]|]; try lia; destruct l as [|[]]; reflexivity.
Qed.

Lemma round_nearest_even_step (mx : Z) (lx : location) :
  round_nearest_even mx lx = mx \/ round_nearest_even mx lx = mx + 1.
Proof.
  destruct lx as [|[]]; simpl; auto. destruct (Z.even mx); auto.
Qed.

(** Rounding a significand of 53 or 54 bits: the result is a normal float
    whose exponent is the input's, plus one for each carry. *)
Lemma round_aux_shape (q e : Z) (l : location) :
  2 ^ 52 <= q < 2 ^ 54 -> -1074 <= e <= 900 ->
  exists (mf : positive) (ef : Z),
    binary_round_aux 53 1024 false q e l = S754_finite false mf ef /\
    2 ^ 52 <= Zpos mf < 2 ^ 53 /\
    e <= ef <= e + 2 /\
    (q <= 2 ^ 53 - 2 -> ef = e) /\
    (q <= 2 ^ 54 - 3 -> ef <= e + 1).
Proof.
  intros Hq He. unfold binary_round_aux.
  assert (Hfinal : forall q2 e1 : Z,
    2 ^ 52 <= q2 <= 2 ^ 53 -> -1074 <= e1 <= 901 ->
    exists (mf : positive) (ef : Z),
      (let '(mrs'', e'') := shr_fexp 53 1024 q2 e1 loc_Exact in
       match shr_m mrs'' with
       | 0 => S754_zero false
       | Zpos m => if e'' <=? 1024 - 53
                   then S754_finite false m e'' else S754_infinity false
       | Zneg _ => S754_nan
       end) = S754_finite false mf ef /\
      2 ^ 52 <= Zpos mf < 2 ^ 53 /\
      e1 <= ef <= e1 + 1 /\ (q2 < 2 ^ 53 -> ef = e1)).
  { intros q2 e1 Hq2 He1.
    destruct (Z.lt_ge_cases q2 (2 ^ 53)) as [Hlt|Hge].
    - rewrite shr_fexp_53 by lia. simpl shr_m.
      destruct q2 as [|m|m]; try lia.
      replace (shr_m (shr_record_of_loc (Zpos m) loc_Exact)) with (Zpos m)
        by reflexivity.
      destruct (Z.leb_spec e1 (1024 - 53)); [|lia].
      exists m, e1. repeat split; lia.
    - assert (q2 = 2 ^ 53) as -> by lia.
      rewrite shr_fexp_54 by lia.
      destruct (Z.leb_spec (e1 + 1) (1024 - 53)); [|lia].
      exists (4503599627370496)%positive, (e1 + 1).
      repeat split; lia. }
  destruct (Z.lt_ge_cases q (2 ^ 53)) as [Hlt|Hge].
  - rewrite shr_fexp_53 by lia.
    assert (Hm : shr_m (shr_record_of_loc q l) = q)
      by (destruct l as [|[]]; reflexivity).
    rewrite Hm.
    destruct (round_nearest_even_step q
                (loc_of_shr_record (shr_record_of_loc q l))) as [-> | ->].
    + destruct (Hfinal q e ltac:(lia) ltac:(lia)) as (mf & ef & -> & Hmf & Hef & Hk).
      exists mf, ef. repeat split; try lia.
    + destruct (Hfinal (q + 1) e ltac:(lia) ltac:(lia))
        as (mf & ef & -> & Hmf & Hef & Hk).
      exists mf, ef. repeat split; try lia.
  - rewrite shr_fexp_54 by lia.
    pose proof (shr_1_half q l ltac:(lia)) as Hm.
    assert (Hq1 : 2 ^ 52 <= q / 2 < 2 ^ 53).
    { split.
      - apply Z.div_le_lower_bound; lia.
      - apply Z.div_lt_upper_bound; lia. }
    assert (Hq1' : q <= 2 ^ 54 - 3 -> q / 2 <= 2 ^ 53 - 2).
    { intros H. apply Z.lt_succ_r. apply Z.div_lt_upper_bound; lia. }
    rewrite Hm.
    destruct (round_nearest_even_step (q / 2)
                (loc_of_shr_record (shr_1 (shr_record_of_loc q l))))
      as [-> | ->].
    + destruct (Hfinal (q / 2) (e + 1) ltac:(lia) ltac:(lia))
        as (mf & ef & -> & Hmf & Hef & Hk).
      exists mf, ef. repeat split; try lia.
    + destruct (Hfinal (q / 2 + 1) (e + 1) ltac:(lia) ltac:(lia))
        as (mf & ef & -> & Hmf & Hef & Hk).
      exists mf, ef. repeat split; try lia.
Qed.

Lemma div_core_shape (px pm : positive) (s : Z) :
  s = Zpos (digits2_pos pm) - Zpos (digits2_pos px) + 53 ->
  53 <= s <= 1000 ->
  SFdiv_core_binary 53 1024 (Zpos px) 0 (Zpos pm) 0
  = (Zpos px * 2 ^ s / Zpos pm, - s,
     new_location (Zpos pm) ((Zpos px * 2 ^ s) mod Zpos pm)).
Proof.
  intros Hs Hr. unfold SFdiv_core_binary, Zdigits2, fexp, emin.
  set (d1 := Zpos (digits2_pos px)) in *.
  set (d2 := Zpos (digits2_pos pm)) in *.
  replace (Z.min (Z.max (d1 + 0 - (d2 + 0) - 53) (3 - 1024 - 53)) (0 - 0))
    with (- s) by lia.
  replace (0 - 0 - - s) with s by lia.
  destruct s as [|ps|ps] eqn:Es; try lia.
  rewrite Z.shiftl_mul_pow2 by lia.
  unfold Z.div, Z.modulo.
  destruct (Z.div_eucl (Zpos px * 2 ^ Zpos ps) (Zpos pm)) as [q r].
  reflexivity.
Qed.

(** The quotient of a residue by a modulus below [2^53] is a normal float
    with exponent at most -53: a float below 1. *)
Lemma ratio_shape (x m : Z) :
  0 < x < m -> m < 2 ^ 53 ->
  exists (mf : positive) (ef : Z),
    B64.ratio x m = S754_finite false mf ef /\
    2 ^ 52 <= Zpos mf < 2 ^ 53 /\ -105 <= ef <= -53.
Proof.
  intros [Hx Hxm] Hm.
  destruct x as [|px|px]; try lia. destruct m as [|pm|pm]; try lia.
  pose proof (digits2_bounds px) as [Xlo Xhi].
  pose proof (digits2_bounds pm) as [Mlo Mhi].
  set (d1 := Zpos (digits2_pos px)) in *.
  set (d2 := Zpos (digits2_pos pm)) in *.
  assert (Hd1 : 1 <= d1) by (unfold d1; lia).
  assert (Hd12 : d1 <= d2).
  { destruct (Z.le_gt_cases d1 d2) as [|Hgt]; [assumption|].
    assert (2 ^ d2 <= 2 ^ (d1 - 1)) by (apply Z.pow_le_mono_r; lia). lia. }
  assert (Hd2 : d2 <= 53).
  { destruct (Z.le_gt_cases d2 53) as [|Hgt]; [assumption|].
    assert (2 ^ 53 <= 2 ^ (d2 - 1)) by (apply Z.pow_le_mono_r; lia). lia. }
  set (s := d2 - d1 + 53).
  unfold B64.ratio, B64.raw, SFdiv, B64.prec, B64.emax.
  rewrite (div_core_shape px pm s eq_refl) by (unfold s; lia).
  set (a := 2 ^ (d1 - 1)) in *. set (b := 2 ^ (d2 - 1)) in *.
  set (c := 2 ^ (d2 - d1)).
  assert (Ha : 0 < a) by (apply Z.pow_pos_nonneg; lia).
  assert (Hb : 0 < b) by (apply Z.pow_pos_nonneg; lia).
  assert (Hc : 0 < c) by (apply Z.pow_pos_nonneg; lia).
  assert (Ha2 : 2 ^ d1 = 2 * a).
  { unfold a. replace d1 with (Z.succ (d1 - 1)) at 1 by lia.
    apply Z.pow_succ_r. lia. }
  assert (Hb2 : 2 ^ d2 = 2 * b).
  { unfold b. replace d2 with (Z.succ (d2 - 1)) at 1 by lia.
    apply Z.pow_succ_r. lia. }
  assert (Hsc : 2 ^ s = 2 ^ 53 * c).
  { unfold s, c. replace (d2 - d1 + 53) with (53 + (d2 - d1)) by lia.
    apply Z.pow_add_r; lia. }
  assert (Hcab : c * a = b).
  { unfold c, a, b. rewrite <- Z.pow_add_r by lia. f_equal. lia. }
  set (q := Zpos px * 2 ^ s / Zpos pm).
  assert (Hq52 : 2 ^ 52 <= q).
  { apply Z.div_le_lower_bound; [lia|]. rewrite Hsc. nia. }
  assert (Hq54 : q < 2 ^ 54).
  { apply Z.div_lt_upper_bound; [lia|]. rewrite Hsc. nia. }
  assert (HK : q <= 2 ^ s - c - 1).
  { apply Z.lt_succ_r. apply Z.div_lt_upper_bound; [lia|]. rewrite Hsc. nia. }
  destruct (round_aux_shape q (- s)
              (new_location (Zpos pm) ((Zpos px * 2 ^ s) mod Zpos pm))
              ltac:(lia) ltac:(unfold s; lia))
    as (mf & ef & Hr & Hmf & Hef & H53 & H54).
  simpl xorb. rewrite Hr. exists mf, ef.
  split; [reflexivity|]. split; [exact Hmf|].
  split; [unfold s in *; lia|].
  destruct (Z.eq_dec d2 d1) as [E|NE].
  - assert (c = 1) by (unfold c; rewrite E, Z.sub_diag; reflexivity).
    rewrite Hsc in HK. rewrite H53 by lia. unfold s. lia.
  - destruct (Z.eq_dec d2 (d1 + 1)) as [E1|NE1].
    + assert (c = 2) by (unfold c; rewrite E1;
                         replace (d1 + 1 - d1) with 1 by lia; reflexivity).
      rewrite Hsc in HK. specialize (H54 ltac:(lia)). unfold s in *. lia.
    + unfold s in *. lia.
Qed.

Lemma ratio_zero (m : Z) : B64.ratio 0 m = match m with
                                           | 0 => S754_nan
                                           | Zpos _ => S754_zero false
                                           | Zneg _ => S754_zero true
                                           end.
Proof. destruct m; reflexivity. Qed.

Lemma one_value : B64.one = S754_finite false 4503599627370496 (-52).
Proof. reflexivity. Qed.

Lemma ratio_in_unit_interval (x m : Z) :
  0 <= x < m -> m < 2 ^ 53 -> B64.in_unit_interval (B64.ratio x m).
Proof.
  intros [Hx Hxm] Hm. unfold B64.in_unit_interval. rewrite one_value.
  destruct (Z.eq_dec x 0) as [->|Hnz].
  - rewrite ratio_zero. destruct m; try lia. split; reflexivity.
  - destruct (ratio_shape x m ltac:(lia) Hm) as (mf & ef & -> & _ & Hef).
    split; [reflexivity|].
    unfold SFltb, SFcompare.
    assert ((ef ?= -52) = Lt) as -> by (apply Z.compare_lt_iff; lia).
    reflexivity.
Qed.

(** ** Rounding a positive significand *)

Lemma shr_1_m (r : shr_record) :
  0 <= shr_m r -> shr_m (shr_1 r) = shr_m r / 2.
Proof.
  destruct r as [m b s]. cbn [shr_m]. intros Hm. rewrite <- Z.div2_div.
  destruct m as [|[p|p|]|]; try lia; reflexivity.
Qed.

Lemma iter_shr_1_m (n : positive) :
  forall r : shr_record,
    0 <= shr_m r -> shr_m (SpecFloat.iter_pos shr_1 n r) = shr_m r / 2 ^ Zpos n.
Proof.
  induction n as [n IH|n IH|]; intros r Hr; cbn [SpecFloat.iter_pos].
  - assert (H1 : 0 <= shr_m (shr_1 r))
      by (rewrite shr_1_m by exact Hr; apply Z.div_pos; lia).
    assert (H2 : 0 <= shr_m (SpecFloat.iter_pos shr_1 n (shr_1 r)))
      by (rewrite IH by exact H1; apply Z.div_pos; lia).
    rewrite IH by exact H2. rewrite IH by exact H1.
    rewrite shr_1_m by exact Hr.
    rewrite !Z.div_div by lia.
    change (Zpos n~1) with (2 * Zpos n + 1).
    rewrite Z.pow_add_r, Z.pow_mul_r by lia.
    f_equal. change (2 ^ 2) with 4. change (2 ^ 1) with 2.
    replace (4 ^ Zpos n) with (2 ^ Zpos n * 2 ^ Zpos n); [lia|].
    rewrite <- Z.pow_mul_l. reflexivity.
  - assert (H1 : 0 <= shr_m (SpecFloat.iter_pos shr_1 n r))
      by (rewrite IH by exact Hr; apply Z.div_pos; lia).
    rewrite IH by exact H1. rewrite IH by exact Hr.
    rewrite !Z.div_div by lia.
    change (Zpos n~0) with (2 * Zpos n).
    rewrite Z.pow_mul_r by lia.
    f_equal. change (2 ^ 2) with 4.
    rewrite <- Z.pow_mul_l. reflexivity.
  - rewrite shr_1_m by exact Hr. reflexivity.
Qed.

Lemma iter_xO_value (p k : positive) :
  Zpos (Pos.iter xO p k) = Zpos p * 2 ^ Zpos k.
Proof.
  induction k as [|k IH] using Pos.peano_ind.
  - change (Pos.iter xO p 1) with (p~0)%positive.
    change (Zpos p~0) with (2 * Zpos p). change (2 ^ 1) with 2. lia.
  - rewrite Pos.iter_succ, Pos2Z.inj_succ, Z.pow_succ_r by lia.
    change (Zpos (Pos.iter xO p k)~0) with (2 * Zpos (Pos.iter xO p k)).
    rewrite IH. lia.
Qed.

(** The last step of a rounding: a significand of 53 bits, or [2^53] after
    a carry, is kept as a normal float. *)
Lemma round_final_shape (q e : Z) :
  2 ^ 52 <= q <= 2 ^ 53 -> -1074 <= e <= 901 ->
  exists (mf : positive) (ef : Z),
    (let '(mrs, e') := shr_fexp 53 1024 q e loc_Exact in
     match shr_m mrs with
     | 0 => S754_zero false
     | Zpos m => if e' <=? 1024 - 53
                 then S754_finite false m e' else S754_infinity false
     | Zneg _ => S754_nan
     end) = S754_finite false mf ef.
Proof.
  intros Hq He. destruct (Z.lt_ge_cases q (2 ^ 53)) as [Hlt|Hge].
  - rewrite shr_fexp_53 by lia.
    destruct q as [|m|m]; try lia.
    replace (shr_m (shr_record_of_loc (Zpos m) loc_Exact)) with (Zpos m)
      by reflexivity.
    destruct (Z.leb_spec e (1024 - 53)); [|lia]. eauto.
  - assert (q = 2 ^ 53) as -> by lia.
    rewrite shr_fexp_54 by lia.
    destruct (Z.leb_spec (e + 1) (1024 - 53)); [|lia]. eauto.
Qed.

Lemma round_aux_positive (p : positive) (e B : Z) :
  -1074 <= e <= 900 -> Zpos p < 2 ^ B -> B + e <= 950 ->
  exists (mf : positive) (ef : Z),
    binary_round_aux 53 1024 false (Zpos p) e loc_Exact
    = S754_finite false mf ef.
Proof.
  intros He HB HBe.
  pose proof (digits2_bounds p) as [Dlo Dhi].
  set (d := Zpos (digits2_pos p)) in *.
  assert (Hd : 1 <= d) by (unfold d; lia).
  assert (HdB : d <= B).
  { destruct (Z.le_gt_cases d B) as [H|H]; [exact H|].
    assert (2 ^ B <= 2 ^ (d - 1)) by (apply Z.pow_le_mono_r; lia). lia. }
  unfold binary_round_aux. unfold shr_fexp at 1.
  change (Zdigits2 (Zpos p)) with d. unfold fexp, emin.
  destruct (Z.max (d + e - 53) (3 - 1024 - 53) - e) as [|n|n] eqn:En.
  - cbn [shr shr_record_of_loc shr_m loc_of_shr_record round_nearest_even].
    unfold shr_fexp. change (Zdigits2 (Zpos p)) with d. unfold fexp, emin.
    rewrite En.
    cbn [shr shr_record_of_loc shr_m].
    destruct (Z.leb_spec e (1024 - 53)); [|lia]. eauto.
  - unfold shr.
    assert (Hn : Zpos n = d - 53) by (clear - En He; lia).
    set (r := SpecFloat.iter_pos shr_1 n (shr_record_of_loc (Zpos p) loc_Exact)).
    assert (Hm : shr_m r = Zpos p / 2 ^ Zpos n).
    { unfold r. rewrite iter_shr_1_m by (cbn; lia). reflexivity. }
    assert (Hpow : 2 ^ (d - 1) = 2 ^ Zpos n * 2 ^ 52).
    { rewrite <- Z.pow_add_r by lia. f_equal. lia. }
    assert (Hpow' : 2 ^ d = 2 ^ Zpos n * 2 ^ 53).
    { rewrite <- Z.pow_add_r by lia. f_equal. lia. }
    assert (Hq : 2 ^ 52 <= shr_m r < 2 ^ 53).
    { rewrite Hm. split.
      - apply Z.div_le_lower_bound; [lia|]. rewrite <- Hpow. exact Dlo.
      - apply Z.div_lt_upper_bound; [lia|]. rewrite <- Hpow'. exact Dhi. }
    assert (Hen : -1074 <= e + Zpos n <= 901)
      by (clear - He Hn HdB HBe; lia).
    clearbody r.
    destruct (round_nearest_even_step (shr_m r) (loc_of_shr_record r))
      as [-> | ->];
      apply round_final_shape; (exact Hen || (clear - Hq; lia)).
  - cbn [shr shr_record_of_loc shr_m loc_of_shr_record round_nearest_even].
    unfold shr_fexp. change (Zdigits2 (Zpos p)) with d. unfold fexp, emin.
    rewrite En.
    cbn [shr shr_record_of_loc shr_m].
    destruct (Z.leb_spec e (1024 - 53)); [|lia]. eauto.
Qed.

(** Rounding a positive integer significand with an exponent in range
    gives a positive finite float: neither zero nor an overflow. *)
Lemma binary_round_positive (p : positive) (e B : Z) :
  -1074 <= e <= 900 -> Zpos p < 2 ^ B -> B + e <= 950 ->
  exists (mf : positive) (ef : Z),
    binary_round 53 1024 false p e = S754_finite false mf ef.
Proof.
  intros He HB HBe.
  assert (HB0 : 0 <= B).
  { destruct (Z.le_gt_cases 0 B) as [H|H]; [exact H|].
    rewrite Z.pow_neg_r in HB by lia. lia. }
  unfold binary_round, shl_align, fexp, emin.
  set (d := Zpos (digits2_pos p)).
  destruct (Z.max (d + e - 53) (3 - 1024 - 53) - e) as [|k|k] eqn:Ek.
  - apply (round_aux_positive p e B); assumption.
  - apply (round_aux_positive p e B); assumption.
  - apply (round_aux_positive _ _ (B + Zpos k)); [lia| |lia].
    rewrite iter_xO_value, Z.pow_add_r by lia.
    apply Z.mul_lt_mono_pos_r; lia.
Qed.

(** [1 - u] for a draw [u] below 1 is a positive finite float. *)
Lemma fsub_one_positive (mf : positive) (ef : Z) :
  2 ^ 52 <= Zpos mf < 2 ^ 53 -> -105 <= ef <= -53 ->
  exists (m : positive) (e : Z),
    B64.fsub B64.one (S754_finite false mf ef) = S754_finite false m e.
Proof.
  intros Hmf Hef. rewrite one_value. unfold B64.fsub, SFsub.
  rewrite Z.min_r by lia. unfold shl_align. rewrite Z.sub_diag.
  destruct (ef - -52) as [|k|k] eqn:Ek; try lia.
  cbn [fst cond_Zopp].
  pose proof (iter_xO_value 4503599627370496 k) as Hv.
  assert (Hk : 1 <= Zpos k <= 53) by lia.
  assert (H2k : 2 <= 2 ^ Zpos k).
  { change 2 with (2 ^ 1) at 1. apply Z.pow_le_mono_r; lia. }
  change (Zpos 4503599627370496) with (2 ^ 52) in Hv.
  set (A := Zpos (Pos.iter xO 4503599627370496%positive k)) in *.
  assert (HA : 2 ^ 53 <= A).
  { rewrite Hv. change (2 ^ 53) with (2 ^ 52 * 2).
    apply Z.mul_le_mono_nonneg_l; [apply Z.pow_nonneg; lia | exact H2k]. }
  assert (HA' : A = 2 ^ (52 + Zpos k)).
  { rewrite Hv, Z.pow_add_r by lia. reflexivity. }
  destruct (A - Zpos mf) as [|z|z] eqn:Ez; try lia.
  unfold binary_normalize.
  apply (binary_round_positive z ef (52 + Zpos k)); lia.
Qed.

(** ** Multiplying by 1.0 and adding 0.0 *)

Lemma fmul_one_normal (mf : positive) (ef : Z) :
  2 ^ 52 <= Zpos mf < 2 ^ 53 -> -1074 <= ef <= 900 ->
  B64.fmul B64.one (S754_finite false mf ef) = S754_finite false mf ef.
Proof.
  intros Hmf Hef. rewrite one_value.
  unfold B64.fmul, SFmul, binary_round_aux. simpl xorb.
  assert (Hd : Zdigits2 (Zpos (4503599627370496 * mf)) = 105).
  { apply (digits2_unique (4503599627370496 * mf) 105); [|lia].
    rewrite Pos2Z.inj_mul. change (Zpos 4503599627370496) with (2 ^ 52).
    change (2 ^ (105 - 1)) with (2 ^ 52 * 2 ^ 52).
    change (2 ^ 105) with (2 ^ 52 * 2 ^ 53). nia. }
  assert (Hs : shr_fexp B64.prec B64.emax (Zpos (4503599627370496 * mf))
                 (-52 + ef) loc_Exact
               = (Build_shr_record (Zpos mf) false false, ef)).
  { unfold shr_fexp. rewrite Hd. unfold fexp, emin, B64.prec, B64.emax.
    replace (Z.max (105 + (-52 + ef) - 53) (3 - 1024 - 53) - (-52 + ef))
      with 52 by lia.
    unfold shr. replace (-52 + ef + 52) with ef by lia. reflexivity. }
  rewrite Hs. simpl shr_m. simpl loc_of_shr_record.
  simpl round_nearest_even.
  unfold B64.prec, B64.emax. rewrite shr_fexp_53 by lia.
  simpl shr_m. destruct (Z.leb_spec ef (1024 - 53)); [reflexivity | lia].
Qed.

(** The draws [pseudo_uniform(seed=seed, size=n)] hands to a sampler are
    the engine's values: scaling by [1 - 0] and shifting by [0] change
    nothing. *)
Lemma unit_rescale_id (x : Z) :
  0 <= x < good_mod ->
  B64.fadd (B64.of_int 0)
    (B64.fmul (B64.fsub (B64.of_int 1) (B64.of_int 0)) (B64.ratio x good_mod))
  = B64.ratio x good_mod.
Proof.
  intros Hx.
  change (B64.fsub (B64.of_int 1) (B64.of_int 0)) with B64.one.
  change (B64.of_int 0) with (S754_zero false).
  destruct (Z.eq_dec x 0) as [->|Hnz]; [reflexivity|].
  destruct (ratio_shape x good_mod ltac:(lia) ltac:(reflexivity))
    as (mf & ef & -> & Hmf & Hef).
  rewrite fmul_one_normal by lia. reflexivity.
Qed.

Lemma b64_uniform_ok (low high : spec_float) (seed size : Z) :
  1 <= size ->
  B64.pseudo_uniform low high seed size
  = B64.Ok (map (fun u => B64.fadd low (B64.fmul (B64.fsub high low) u))
              (B64.lcg_values good_mult good_mod seed (Z.to_nat size))).
Proof.
  intros Hs. unfold B64.pseudo_uniform. rewrite b64_engine_cases.
  destruct (Z.ltb_spec size 0); [lia|].
  destruct (Z.eqb_spec good_mod 0) as [E|_]; [discriminate E|].
  destruct (Z.eqb_spec size 0); [lia|]. reflexivity.
Qed.

Lemma b64_unit_draws (seed size : Z) :
  1 <= size ->
  B64.pseudo_uniform (B64.of_int 0) (B64.of_int 1) seed size
  = B64.Ok (B64.lcg_values good_mult good_mod seed (Z.to_nat size)).
Proof.
  intros Hs. rewrite b64_uniform_ok by exact Hs. f_equal.
  unfold B64.lcg_values. rewrite <- list_fmap_compose.
  apply list_fmap_ext. intros i j _. simpl.
  apply unit_rescale_id. apply lcg_state_range; reflexivity.
Qed.

Lemma b64_values_unit (mult m seed : Z) (n : nat) :
  0 < m -> m < 2 ^ 53 ->
  Forall B64.in_unit_interval (B64.lcg_values mult m seed n).
Proof.
  intros Hm Hm53. unfold B64.lcg_values. apply Forall_fmap, Forall_forall.
  intros i _. simpl. apply ratio_in_unit_interval; [|exact Hm53].
  apply lcg_state_range; lia.
Qed.

(** C1, for binary64 quotients.  For a modulus [m > 0] and a count
    [n >= 1] both generators return a buffer of exactly [n] floats.  Entry 0
    is the float nearest to [((seed*mult + 1) mod m) / m]; entry [i], for
    [1 <= i < n], is the float nearest to [x_i / m] with
    [x_i = (x_(i-1)*mult + 1) mod m], where the entry before it is the float
    nearest to [x_(i-1) / m]; the states [x_i] are those of [lcg_state] and
    lie in [[0, m)].  When the modulus is below [2^53], every entry lies in
    [[0, 1)]. *)
Theorem engine_recurrence_binary64 (mult m seed n : Z) :
  0 < m -> 1 <= n ->
  exists U : list spec_float,
    B64.pseudo_uniform_good mult m seed n = B64.Ok U /\
    B64.pseudo_uniform_bad mult m seed n = B64.Ok U /\
    Z.of_nat (length U) = n /\
    U !! 0%nat = Some (B64.ratio ((seed * mult + 1) mod m) m) /\
    (forall i : nat, (1 <= i)%nat -> Z.of_nat i < n ->
       exists x_prev x_i : Z,
         0 <= x_prev < m /\
         U !! (i - 1)%nat = Some (B64.ratio x_prev m) /\
         x_i = (x_prev * mult + 1) mod m /\
         U !! i = Some (B64.ratio x_i m)) /\
    (forall i : nat, Z.of_nat i < n ->
       0 <= lcg_state mult m seed i < m /\
       U !! i = Some (B64.ratio (lcg_state mult m seed i) m)) /\
    (m < 2 ^ 53 -> Forall B64.in_unit_interval U).
Proof.
  intros Hm Hn. exists (B64.lcg_values mult m seed (Z.to_nat n)).
  change (B64.pseudo_uniform_bad mult m seed n)
    with (B64.pseudo_uniform_good mult m seed n).
  assert (HU : B64.pseudo_uniform_good mult m seed n
               = B64.Ok (B64.lcg_values mult m seed (Z.to_nat n))).
  { rewrite b64_engine_cases.
    destruct (Z.ltb_spec n 0); [lia|]. destruct (Z.eqb_spec m 0); [lia|].
    destruct (Z.eqb_spec n 0); [lia|]. reflexivity. }
  split; [exact HU|]. split; [exact HU|].
  rewrite b64_values_length. split; [lia|].
  split; [apply b64_values_lookup; lia|].
  split; [|split].
  - intros i Hi Hin. destruct i as [|j]; [lia|].
    exists (lcg_state mult m seed j), (lcg_state mult m seed (S j)).
    replace (S j - 1)%nat with j by lia.
    rewrite !b64_values_lookup by lia.
    split; [apply lcg_state_range; lia|]. auto.
  - intros i Hin. split; [apply lcg_state_range; lia|].
    apply b64_values_lookup. lia.
  - intros Hm53. apply b64_values_unit; assumption.
Qed.

Lemma engine_recurrence_binary64_witness :
  0 < good_mod /\ 1 <= 3 /\
  exists U : list spec_float,
    B64.pseudo_uniform_good good_mult good_mod 123456789 3 = B64.Ok U /\
    B64.pseudo_uniform_bad good_mult good_mod 123456789 3 = B64.Ok U /\
    Z.of_nat (length U) = 3 /\
    U !! 0%nat
    = Some (B64.ratio ((123456789 * good_mult + 1) mod good_mod) good_mod) /\
    (forall i : nat, (1 <= i)%nat -> Z.of_nat i < 3 ->
       exists x_prev x_i : Z,
         0 <= x_prev < good_mod /\
         U !! (i - 1)%nat = Some (B64.ratio x_prev good_mod) /\
         x_i = (x_prev * good_mult + 1) mod good_mod /\
         U !! i = Some (B64.ratio x_i good_mod)) /\
    (forall i : nat, Z.of_nat i < 3 ->
       0 <= lcg_state good_mult good_mod 123456789 i < good_mod /\
       U !! i
       = Some (B64.ratio (lcg_state good_mult good_mod 123456789 i) good_mod)) /\
    (good_mod < 2 ^ 53 -> Forall B64.in_unit_interval U).
Proof.
  split; [reflexivity|]. split; [lia|].
  apply (engine_recurrence_binary64 good_mult good_mod 123456789 3);
    [reflexivity | lia].
Defined.

(** Against C1 as stated: with modulus [2^60], multiplier 1 and seed
    [2^60 - 2] the state is [2^60 - 1], and its quotient by [2^60] rounds to
    [1.0], which is not in [[0, 1)]. *)
Lemma engine_entry_rounds_to_one :
  0 < 2 ^ 60 /\ 1 <= 1 /\
  B64.pseudo_uniform_good 1 (2 ^ 60) (2 ^ 60 - 2) 1 = B64.Ok [B64.one] /\
  SFltb B64.one B64.one = false /\
  ~ Forall B64.in_unit_interval [B64.one].
Proof.
  split; [reflexivity|]. split; [lia|]. split; [vm_compute; reflexivity|].
  split; [reflexivity|].
  intros H. apply Forall_inv in H. destruct H as [_ H]. discriminate H.
Qed.

(** ** The uniform sampler *)



Lemma SFeqb_finite_refl (s : bool) (m : positive) (e : Z) :
  SFeqb (S754_finite s m e) (S754_finite s m e) = true.
Proof.
  unfold SFeqb, SFcompare. rewrite Z.compare_refl.
  change (Pos.compare_cont Eq m m) with (Pos.compare m m).
  rewrite Pos.compare_refl. destruct s; reflexivity.
Qed.

(** A unit-interval float is [+0] or a positive finite float. *)
Lemma in_unit_interval_shape (u : spec_float) :
  B64.in_unit_interval u ->
  (exists s : bool, u = S754_zero s) \/
  (exists (m : positive) (e : Z), u = S754_finite false m e).
Proof.
  intros [H0 H1]. destruct u as [s|s| |s m e].
  - left. eauto.
  - destruct s; discriminate.
  - discriminate.
  - destruct s; [discriminate|]. right. eauto.
Qed.





(** ** The Poisson loop *)













(** ** One clock reading, one run of the engine *)

Lemma b64_bernoulli_run (p : spec_float) (n : Z) (w : B64.world) (s : Z) :
  1 <= n ->
  B64.clock_seed (B64.trace w (B64.ticks w)) = B64.Ok s ->
  B64.pseudo_bernoulli p n w
  = (B64.Ok (B64.le_astype_int
               (B64.lcg_values good_mult good_mod s (Z.to_nat n)) p),
     B64.advance w 1).
Proof.
  intros Hn Hs. unfold B64.pseudo_bernoulli.
  unfold B64.sbind at 1. unfold B64.perf_counter.
  unfold B64.sbind at 1. unfold B64.lift at 1. rewrite Hs. cbn [B64.rbind].
  unfold B64.sbind at 1. unfold B64.lift at 1.
  rewrite (b64_unit_draws s n Hn).
  unfold B64.sret, B64.advance. rewrite Nat.add_1_r. reflexivity.
Qed.

Lemma b64_normal_run (L : B64.Libm) (mu sigma : spec_float) (n : Z)
    (w : B64.world) (s1 s2 : Z) :
  1 <= n ->
  B64.clock_seed (B64.trace w (B64.ticks w)) = B64.Ok s1 ->
  B64.clock_seed (B64.trace w (S (B64.ticks w))) = B64.Ok s2 ->
  B64.pseudo_normal L mu sigma n w
  = (B64.Ok
       (zip_with
          (fun u1 u2 =>
             B64.fadd
               (B64.fmul
                  (B64.fmul
                     (B64.fsqrt (B64.fmul (B64.of_int (-2)) (B64.np_log L u1)))
                     (B64.np_cos L
                        (B64.fmul (B64.fmul (B64.of_int 2) B64.pi) u2)))
                  sigma)
               mu)
          (B64.lcg_values good_mult good_mod s1 (Z.to_nat n))
          (B64.lcg_values good_mult good_mod s2 (Z.to_nat n))),
     B64.advance w 2).
Proof.
  intros Hn H1 H2. unfold B64.pseudo_normal.
  unfold B64.sbind at 1. unfold B64.perf_counter at 1.
  unfold B64.sbind at 1. unfold B64.lift at 1. rewrite H1. cbn [B64.rbind].
  unfold B64.sbind at 1. unfold B64.lift at 1.
  rewrite (b64_unit_draws s1 n Hn).
  unfold B64.sbind at 1. unfold B64.perf_counter at 1.
  cbn [B64.trace B64.ticks].
  unfold B64.sbind at 1. unfold B64.lift at 1. rewrite H2.
  unfold B64.sbind at 1. unfold B64.lift at 1.
  rewrite (b64_unit_draws s2 n Hn).
  unfold B64.sret, B64.advance.
  replace (B64.ticks w + 2)%nat with (S (S (B64.ticks w))) by lia.
  f_equal. f_equal.
  generalize (B64.lcg_values good_mult good_mod s2 (Z.to_nat n)).
  induction (B64.lcg_values good_mult good_mod s1 (Z.to_nat n)) as [|a l IH];
    intros [|b l2]; try reflexivity.
  cbn [map zip_with fmap list_fmap]. f_equal. apply IH.
Qed.

Lemma b64_exp_run (L : B64.Libm) (lamb r : spec_float) (n : Z)
    (w : B64.world) (s : Z) :
  1 <= n ->
  B64.clock_seed (B64.trace w (B64.ticks w)) = B64.Ok s ->
  B64.py_inv lamb = B64.Ok r ->
  B64.pseudo_exp L lamb n w
  = (B64.Ok
       (map (fun u => B64.fmul (SFopp r) (B64.np_log L (B64.fsub B64.one u)))
          (B64.lcg_values good_mult good_mod s (Z.to_nat n))),
     B64.advance w 1).
Proof.
  intros Hn Hs Hr. unfold B64.pseudo_exp.
  unfold B64.sbind at 1. unfold B64.perf_counter.
  unfold B64.sbind at 1. unfold B64.lift at 1. rewrite Hs. cbn [B64.rbind].
  unfold B64.sbind at 1. unfold B64.lift at 1.
  rewrite (b64_unit_draws s n Hn).
  unfold B64.sbind at 1. unfold B64.lift at 1. rewrite Hr.
  unfold B64.sret, B64.advance. rewrite Nat.add_1_r. reflexivity.
Qed.

(** ** Comparing a draw with a probability outside [0, 1] *)

Lemma draw_below_large (u p : spec_float) :
  B64.in_unit_interval u -> SFltb B64.one p = true -> SFleb u p = true.
Proof.
  intros [H0 H1] Hp. rewrite one_value in *. unfold B64.zero in H0.
  destruct p as [[]|[]| |[] mp ep]; try discriminate Hp;
    destruct u as [[]|[]| |[] mu eu];
    try discriminate H0; try discriminate H1; try reflexivity.
  unfold SFltb, SFleb, SFcompare in *.
  destruct (Z.compare_spec eu (-52)) as [E1|E1|E1]; try discriminate H1;
    destruct (Z.compare_spec (-52) ep) as [E2|E2|E2]; try discriminate Hp;
    destruct (Z.compare_spec eu ep) as [E3|E3|E3]; try lia; try reflexivity.
  destruct (PosDef.Pos.compare_cont Eq mu 4503599627370496) eqn:M1;
    try discriminate H1.
  destruct (PosDef.Pos.compare_cont Eq 4503599627370496 mp) eqn:M2;
    try discriminate Hp.
  apply Pos.compare_lt_iff in M1. apply Pos.compare_lt_iff in M2.
  assert (M3 : (mu < mp)%positive) by exact (Pos.lt_trans _ _ _ M1 M2).
  apply Pos.compare_lt_iff in M3.
  unfold Pos.compare in M3. rewrite M3. reflexivity.
Qed.

Lemma draw_above_negative (u p : spec_float) :
  B64.in_unit_interval u -> SFltb p B64.zero = true -> SFleb u p = false.
Proof.
  intros [H0 H1] Hp. rewrite one_value in *. unfold B64.zero in *.
  destruct p as [[]|[]| |[] mp ep]; try discriminate Hp;
    destruct u as [[]|[]| |[] mu eu];
    try discriminate H0; try discriminate H1; reflexivity.
Qed.

Lemma b64_bernoulli_constant (U : list spec_float) (p : spec_float) (b : bool) :
  Forall B64.in_unit_interval U ->
  (forall u, B64.in_unit_interval u -> SFleb u p = b) ->
  B64.le_astype_int U p = replicate (length U) (if b then 1 else 0).
Proof.
  intros HU Hp. unfold B64.le_astype_int.
  induction HU as [|u U Hu _ IH]; [reflexivity|].
  cbn [map fmap list_fmap length replicate]. rewrite (Hp u Hu).
  f_equal. exact IH.
Qed.

(** C3, as the code has it.  The uniform and the Bernoulli sampler do not
    validate their configuration.  For a count [n >= 1], the uniform
    sampler with [low > high] returns [n] numeric values, value [i] being
    [low + (high - low)*u] evaluated in binary64 on the engine's output [u]
    at [i]; the Bernoulli sampler with a probability above 1 returns [n]
    ones and with a probability below 0 returns [n] zeros, after the one
    clock reading its seed is taken from. *)
Theorem out_of_range_configuration_returns (low high p : spec_float)
    (seed n : Z) (w : B64.world) (s : Z) :
  1 <= n ->
  SFltb high low = true ->
  SFltb B64.one p = true \/ SFltb p B64.zero = true ->
  B64.clock_seed (B64.trace w (B64.ticks w)) = B64.Ok s ->
  (exists V : list spec_float,
     B64.pseudo_uniform low high seed n = B64.Ok V /\
     Z.of_nat (length V) = n /\
     V = map (fun u => B64.fadd low (B64.fmul (B64.fsub high low) u))
           (B64.lcg_values good_mult good_mod seed (Z.to_nat n))) /\
  B64.pseudo_bernoulli p n w
  = (B64.Ok (replicate (Z.to_nat n) (if SFltb B64.one p then 1 else 0)),
     B64.advance w 1).
Proof.
  intros Hn _ Hp Hs. split.
  - eexists. split; [apply b64_uniform_ok; exact Hn|].
    split; [|reflexivity].
    rewrite length_map, b64_values_length. lia.
  - rewrite (b64_bernoulli_run p n w s Hn Hs). f_equal. f_equal.
    assert (HU : Forall B64.in_unit_interval
                   (B64.lcg_values good_mult good_mod s (Z.to_nat n)))
      by (apply b64_values_unit; reflexivity).
    destruct Hp as [Hp|Hp].
    + rewrite Hp.
      rewrite (b64_bernoulli_constant _ p true HU
                 (fun u Hu => draw_below_large u p Hu Hp)).
      rewrite b64_values_length. reflexivity.
    + assert (SFltb B64.one p = false) as ->.
      { destruct p as [sp|sp| |sp mp ep]; try discriminate Hp;
          destruct sp; try discriminate Hp; reflexivity. }
      rewrite (b64_bernoulli_constant _ p false HU
                 (fun u Hu => draw_above_negative u p Hu Hp)).
      rewrite b64_values_length. reflexivity.
Qed.

Lemma out_of_range_configuration_returns_witness :
  (exists V : list spec_float,
     B64.pseudo_uniform (B64.of_int 5) (B64.of_int 2) 123456789 3 = B64.Ok V /\
     Z.of_nat (length V) = 3 /\
     V = map (fun u => B64.fadd (B64.of_int 5)
                         (B64.fmul (B64.fsub (B64.of_int 2) (B64.of_int 5)) u))
           (B64.lcg_values good_mult good_mod 123456789 (Z.to_nat 3))) /\
  B64.pseudo_bernoulli (B64.ratio 3 2) 3 (B64.clock_of [B64.ratio 1 2])
  = (B64.Ok (replicate (Z.to_nat 3)
               (if SFltb B64.one (B64.ratio 3 2) then 1 else 0)),
     B64.advance (B64.clock_of [B64.ratio 1 2]) 1).
Proof.
  apply (out_of_range_configuration_returns
           (B64.of_int 5) (B64.of_int 2) (B64.ratio 3 2) 123456789 3
           (B64.clock_of [B64.ratio 1 2]) 500000000).
  - lia.
  - vm_compute; reflexivity.
  - left. vm_compute; reflexivity.
  - vm_compute; reflexivity.
Defined.

(** Against C3 as stated: [pseudo_uniform(low=5, high=2)] and
    [pseudo_bernoulli(p=1.5)] return numbers. *)
Lemma configuration_not_validated :
  SFltb (B64.of_int 2) (B64.of_int 5) = true /\
  B64.pseudo_uniform (B64.of_int 5) (B64.of_int 2) 123456789 1
  = B64.Ok [S754_finite false 4891748111925770 (-50)] /\
  SFltb B64.one (B64.ratio 3 2) = true /\
  B64.pseudo_bernoulli (B64.ratio 3 2) 3 (B64.clock_of [B64.ratio 1 2])
  = (B64.Ok [1; 1; 1], B64.advance (B64.clock_of [B64.ratio 1 2]) 1).
Proof.
  split; [vm_compute; reflexivity|]. split; [vm_compute; reflexivity|].
  split; vm_compute; reflexivity.
Qed.

(** ** Boundary draws *)

(** Whatever the cosine returns, a zero first draw gives a value that is not
    finite. *)
Lemma zero_draw_not_finite (L : B64.Libm) (c mu sigma : spec_float) :
  B64.is_finite sigma = true -> B64.is_finite mu = true ->
  B64.is_finite
    (B64.fadd
       (B64.fmul
          (B64.fmul
             (B64.fsqrt
                (B64.fmul (B64.of_int (-2)) (B64.np_log L (S754_zero false))))
             c)
          sigma)
       mu) = false.
Proof.
  intros Hs Hm.
  change (B64.fsqrt (B64.fmul (B64.of_int (-2))
                       (B64.np_log L (S754_zero false))))
    with (S754_infinity false).
  destruct c as [sc|sc| |sc mc ec];
    destruct sigma as [ss|ss| |ss ms es]; try discriminate Hs;
    destruct mu as [sm|sm| |sm mm em]; try discriminate Hm;
    try reflexivity;
    try (destruct sc; reflexivity);
    try (destruct sc, ss; reflexivity).
Qed.

(** A draw of the engine is [+0] or a normal float below 1. *)
Lemma b64_values_shape (mult m seed : Z) (n : nat) :
  0 < m -> m < 2 ^ 53 ->
  Forall (fun u =>
            u = S754_zero false \/
            exists (mf : positive) (ef : Z),
              u = S754_finite false mf ef /\
              2 ^ 52 <= Zpos mf < 2 ^ 53 /\ -105 <= ef <= -53)
    (B64.lcg_values mult m seed n).
Proof.
  intros Hm Hm53. unfold B64.lcg_values. apply Forall_fmap, Forall_forall.
  intros i _. simpl.
  assert (Hx : 0 <= lcg_state mult m seed i < m)
    by (apply lcg_state_range; lia).
  destruct (Z.eq_dec (lcg_state mult m seed i) 0) as [->|Hnz].
  - left. rewrite ratio_zero. destruct m; try lia. reflexivity.
  - right.
    destruct (ratio_shape (lcg_state mult m seed i) m ltac:(lia) Hm53)
      as (mf & ef & H & ?).
    exists mf, ef. split; [exact H | assumption].
Qed.

(** [1 - u] is a positive finite float for every draw [u] of the engine. *)
Lemma one_minus_draw_positive (seed : Z) (n : nat) :
  Forall (fun u =>
            exists (m : positive) (e : Z),
              B64.fsub B64.one u = S754_finite false m e)
    (B64.lcg_values good_mult good_mod seed n).
Proof.
  eapply Forall_impl;
    [apply (b64_values_shape good_mult good_mod seed n); reflexivity|].
  intros u [->|(mf & ef & -> & Hmf & Hef)].
  - eexists _, _. reflexivity.
  - apply fsub_one_positive; assumption.
Qed.

(** C4, as the code has it.  Neither sampler checks a draw before taking
    its logarithm, resamples, or raises.  For a count [n >= 1] and clock
    readings that give the seeds [s1] and [s2], the Normal sampler reads
    the clock twice, runs the engine once per seed and returns the [n]
    values [sqrt(-2*log(U1[i]))*cos(2*pi*U2[i])*sigma + mu], where [log] is
    numpy's logarithm of the draw as drawn, which is [ln] of it whenever
    the draw is above 0.  The Exponential sampler, for a rate whose inverse
    [1/rate] is [r], reads the clock once, runs the engine once and returns
    the [n] values [-r*ln(1 - U1[i])].  Every draw lies in [[0, 1)], and
    [1 - U1[i]] is a positive finite float: the logarithm of the
    Exponential sampler does not meet its boundary. *)
Theorem boundary_draws_taken_as_drawn (L : B64.Libm)
    (mu sigma rate r : spec_float) (n : Z) (w : B64.world) (s1 s2 : Z) :
  1 <= n ->
  B64.clock_seed (B64.trace w (B64.ticks w)) = B64.Ok s1 ->
  B64.clock_seed (B64.trace w (S (B64.ticks w))) = B64.Ok s2 ->
  B64.py_inv rate = B64.Ok r ->
  let U1 := B64.lcg_values good_mult good_mod s1 (Z.to_nat n) in
  let U2 := B64.lcg_values good_mult good_mod s2 (Z.to_nat n) in
  Z.of_nat (length U1) = n /\ Z.of_nat (length U2) = n /\
  Forall B64.in_unit_interval U1 /\ Forall B64.in_unit_interval U2 /\
  B64.pseudo_normal L mu sigma n w
  = (B64.Ok
       (zip_with
          (fun u1 u2 =>
             B64.fadd
               (B64.fmul
                  (B64.fmul
                     (B64.fsqrt (B64.fmul (B64.of_int (-2)) (B64.np_log L u1)))
                     (B64.np_cos L
                        (B64.fmul (B64.fmul (B64.of_int 2) B64.pi) u2)))
                  sigma)
               mu)
          U1 U2),
     B64.advance w 2) /\
  Forall (fun u1 => SFltb B64.zero u1 = true ->
                    B64.np_log L u1 = B64.ln L u1) U1 /\
  Forall (fun u => exists (m : positive) (e : Z),
                     B64.fsub B64.one u = S754_finite false m e) U1 /\
  B64.pseudo_exp L rate n w
  = (B64.Ok
       (map (fun u => B64.fmul (SFopp r) (B64.ln L (B64.fsub B64.one u))) U1),
     B64.advance w 1).
Proof.
  intros Hn H1 H2 Hr U1 U2.
  assert (HU1 : Forall B64.in_unit_interval U1)
    by (apply b64_values_unit; reflexivity).
  pose proof (one_minus_draw_positive s1 (Z.to_nat n)) as Hpos.
  fold U1 in Hpos.
  split; [unfold U1; rewrite b64_values_length; lia|].
  split; [unfold U2; rewrite b64_values_length; lia|].
  split; [exact HU1|].
  split; [apply b64_values_unit; reflexivity|].
  split; [apply b64_normal_run; assumption|].
  split.
  { eapply Forall_impl; [exact HU1|]. intros u Hu Hlt.
    destruct (in_unit_interval_shape u Hu) as [[s ->]|(m & e & ->)];
      [destruct s; discriminate Hlt | reflexivity]. }
  split; [exact Hpos|].
  rewrite (b64_exp_run L rate r n w s1 Hn H1 Hr). f_equal. f_equal.
  fold U1. apply Forall_fmap_ext_1.
  eapply Forall_impl; [exact Hpos|].
  intros u (m & e & ->). reflexivity.
Qed.

(** Against C4 as stated: the clock reading 0.739806647 gives the seed
    739806647, whose first draw is [0.0]; the Normal sampler takes its
    logarithm, neither resamples nor raises, and returns [inf]. *)
Lemma normal_zero_draw_returns_infinity :
  B64.clock_seed (B64.ratio 739806647 (10 ^ 9)) = B64.Ok 739806647 /\
  B64.pseudo_uniform (B64.of_int 0) (B64.of_int 1) 739806647 1
  = B64.Ok [S754_zero false] /\
  B64.pseudo_normal B64.approx_libm (B64.of_int 0) (B64.of_int 1) 1
    (B64.clock_of [B64.ratio 739806647 (10 ^ 9); B64.zero])
  = (B64.Ok [S754_infinity false],
     B64.advance (B64.clock_of [B64.ratio 739806647 (10 ^ 9); B64.zero]) 2) /\
  B64.is_finite (S754_infinity false) = false.
Proof.
  split; [vm_compute; reflexivity|]. split; [vm_compute; reflexivity|].
  split; [vm_compute; reflexivity | reflexivity].
Qed.

(** The same run with any implementation of the elementary functions: the
    value returned is not finite. *)
Lemma normal_zero_draw_any_libm (L : B64.Libm) :
  exists v : spec_float,
    B64.pseudo_normal L (B64.of_int 0) (B64.of_int 1) 1
      (B64.clock_of [B64.ratio 739806647 (10 ^ 9); B64.zero])
    = (B64.Ok [v],
       B64.advance
         (B64.clock_of [B64.ratio 739806647 (10 ^ 9); B64.zero]) 2) /\
    B64.is_finite v = false.
Proof.
  eexists. split.
  - rewrite (b64_normal_run L _ _ 1 _ 739806647 0);
      [|lia|vm_compute; reflexivity|vm_compute; reflexivity].
    change (B64.lcg_values good_mult good_mod 739806647 (Z.to_nat 1))
      with [S754_zero false].
    change (B64.lcg_values good_mult good_mod 0 (Z.to_nat 1))
      with [B64.ratio 1 good_mod].
    reflexivity.
  - apply zero_draw_not_finite; reflexivity.
Qed.

Lemma boundary_draws_taken_as_drawn_witness :
  Forall B64.in_unit_interval
    (B64.lcg_values good_mult good_mod 333333333 (Z.to_nat 2)) /\
  B64.pseudo_exp B64.approx_libm (B64.of_int 2) 2
    (B64.clock_of [B64.ratio 1 3; B64.ratio 7 8])
  = (B64.Ok
       (map (fun u =>
               B64.fmul (SFopp (B64.ratio 1 2))
                 (B64.ln B64.approx_libm (B64.fsub B64.one u)))
          (B64.lcg_values good_mult good_mod 333333333 (Z.to_nat 2))),
     B64.advance (B64.clock_of [B64.ratio 1 3; B64.ratio 7 8]) 1).
Proof.
  destruct (boundary_draws_taken_as_drawn B64.approx_libm
              (B64.of_int 0) (B64.of_int 1) (B64.of_int 2) (B64.ratio 1 2) 2
              (B64.clock_of [B64.ratio 1 3; B64.ratio 7 8])
              333333333 875000000)
    as (_ & _ & HU & _ & _ & _ & _ & HE).
  - lia.
  - vm_compute; reflexivity.
  - vm_compute; reflexivity.
  - vm_compute; reflexivity.
  - split; [exact HU | exact HE].
Defined.

(** ** Absolute values of an array *)

Lemma SFabs_idem (x : spec_float) : SFabs (SFabs x) = SFabs x.
Proof. destruct x; reflexivity. Qed.

Lemma SFabs_sign (x : spec_float) :
  SFabs x = S754_nan \/ SFleb B64.zero (SFabs x) = true.
Proof. destruct x; simpl; auto. Qed.

Lemma SFabs_nonneg (x : spec_float) :
  SFleb B64.zero x = true -> SFeqb (SFabs x) x = true.
Proof.
  destruct x as [s|s| |s m e]; try discriminate; destruct s;
    try discriminate; intros _; try reflexivity.
  apply SFeqb_finite_refl.
Qed.

(** X20.  [abs_array] raises [ValueError] on an empty array; on any other it
    returns an array of the same length whose entries are [nan] or not
    below zero, leaves entries that were not below zero unchanged in value,
    and applying it again changes nothing. *)
Theorem abs_array_outcome (array : list spec_float) :
  (array = [] -> B64.abs_array array = B64.Raise B64.ValueError) /\
  (array <> [] ->
   exists r : list spec_float,
     B64.abs_array array = B64.Ok r /\
     length r = length array /\
     Forall (fun v => v = S754_nan \/ SFleb B64.zero v = true) r /\
     (forall (i : nat) (x : spec_float),
        array !! i = Some x -> SFleb B64.zero x = true ->
        exists v : spec_float, r !! i = Some v /\ SFeqb v x = true) /\
     B64.abs_array r = B64.Ok r).
Proof.
  split; [intros ->; reflexivity|].
  intros Hne. exists (map SFabs array).
  destruct array as [|a rest]; [contradiction|].
  split; [reflexivity|]. split; [apply length_map|].
  split; [apply Forall_fmap, Forall_forall; intros x _; apply SFabs_sign|].
  split.
  - intros i x Hi Hx. exists (SFabs x). split; [|apply SFabs_nonneg; exact Hx].
    change (map SFabs (a :: rest)) with (SFabs <$> (a :: rest)).
    rewrite list_lookup_fmap, Hi. reflexivity.
  - cbn [map B64.abs_array]. rewrite SFabs_idem. f_equal. f_equal.
    clear Hne. induction rest as [|b rest IH]; [reflexivity|].
    cbn [map]. rewrite SFabs_idem. f_equal. exact IH.
Qed.
